(** * Logto JS client: ID-token decoding and the sign-out flow

    A shallow embedding of [decodeToken] (utils/id-token) and of
    [LogtoClient] (construction, the sign-in session getter and setter,
    [signIn], [signOut], [getOidcConfig]), together with the platform
    functions they call. *)

From Stdlib Require Import String Ascii NArith ZArith List Bool Lia.
From stdpp Require Import base option list gmap.
Import ListNotations.

Local Open Scope N_scope.

(** ** JavaScript strings

    A JavaScript string is a sequence of 16-bit code units. *)

Abbreviation jsstring := (list N).

Definition code (a : ascii) : N := N_of_ascii a.

(** [js "abc"] is the JavaScript string literal ['abc'] (one code unit per
    character of the literal). *)
Definition js (s : string) : jsstring := map code (list_ascii_of_string s).

Definition jseqb (a b : jsstring) : bool := bool_decide (a = b).

(** [s.split(sep)] for a one-character separator: the segments between the
    occurrences of [sep]; there is always at least one segment. *)
Fixpoint split (sep : N) (s : jsstring) : list jsstring :=
  match s with
  | [] => [[]]
  | c :: s' =>
      if c =? sep then [] :: split sep s'
      else match split sep s' with
           | seg :: segs => (c :: seg) :: segs
           | [] => [[c]]
           end
  end.

(** [s.replace(/c/g, d)] for single characters. *)
Definition replace_all (c d : N) (s : jsstring) : jsstring :=
  map (fun x => if x =? c then d else x) s.

(** ** utils/id-token: [fullfillBase64] *)

Definition fullfillBase64 (input : jsstring) : jsstring :=
  if (length input =? 2)%nat then input ++ js "=="
  else if (length input =? 3)%nat then input ++ js "="
  else input.


(** * Platform functions

    Models of the Node.js and ECMAScript built-ins that [decodeToken] and
    the sign-in session getter call. *)

Module Platform.

(** ** [Buffer.from(s, 'base64')]

    Node's decoder accepts the standard and the URL-safe alphabet, skips
    every character outside them, stops at the first ['='] and does not
    require padding.  Characters are looked up by their low byte. *)

Definition unbase64 (c : N) : option N :=
  if (code "A" <=? c) && (c <=? code "Z") then Some (c - code "A")
  else if (code "a" <=? c) && (c <=? code "z") then Some (c - code "a" + 26)
  else if (code "0" <=? c) && (c <=? code "9") then Some (c - code "0" + 52)
  else if (c =? code "+") || (c =? code "-") then Some 62
  else if (c =? code "/") || (c =? code "_") then Some 63
  else None.

(** The 6-bit values of the legal characters before the first ['=']. *)
Fixpoint base64_sextets (s : jsstring) : list N :=
  match s with
  | [] => []
  | c :: s' =>
      let b := c mod 256 in
      if b =? code "=" then []
      else match unbase64 b with
           | Some v => v :: base64_sextets s'
           | None => base64_sextets s'
           end
  end.

(** Four sextets give three bytes; a final group of three gives two bytes,
    of two gives one byte, and a single left-over sextet gives none. *)
Fixpoint base64_bytes (v : list N) : list N :=
  match v with
  | a :: b :: c :: d :: r =>
      N.lor (N.shiftl (N.land a 0x3F) 2) (N.shiftr (N.land b 0x30) 4)
      :: N.lor (N.shiftl (N.land b 0x0F) 4) (N.shiftr (N.land c 0x3C) 2)
      :: N.lor (N.shiftl (N.land c 0x03) 6) (N.land d 0x3F)
      :: base64_bytes r
  | [a; b; c] =>
      [N.lor (N.shiftl (N.land a 0x3F) 2) (N.shiftr (N.land b 0x30) 4);
       N.lor (N.shiftl (N.land b 0x0F) 4) (N.shiftr (N.land c 0x3C) 2)]
  | [a; b] =>
      [N.lor (N.shiftl (N.land a 0x3F) 2) (N.shiftr (N.land b 0x30) 4)]
  | _ => []
  end.

Definition Buffer_from_base64 (s : jsstring) : list N :=
  base64_bytes (base64_sextets s).

(** ** [buf.toString()]: UTF-8 decoding with replacement

    The decoder of the Encoding Standard: a byte that cannot continue the
    sequence in progress ends it with U+FFFD and is then read again as the
    start of a new sequence. *)

(** A sequence in progress: the code point so far, the number of
    continuation bytes still needed, and the range allowed for the next
    byte. *)
Record utf8_pending := Pending {
  code_point : N;
  bytes_needed : nat;
  lower_boundary : N;
  upper_boundary : N;
}.

Definition utf8_lead (b : N) : list N * option utf8_pending :=
  if b <=? 0x7F then ([b], None)
  else if (0xC2 <=? b) && (b <=? 0xDF) then
    ([], Some (Pending (N.land b 0x1F) 1 0x80 0xBF))
  else if (0xE0 <=? b) && (b <=? 0xEF) then
    ([], Some (Pending (N.land b 0x0F) 2
                 (if b =? 0xE0 then 0xA0 else 0x80)
                 (if b =? 0xED then 0x9F else 0xBF)))
  else if (0xF0 <=? b) && (b <=? 0xF4) then
    ([], Some (Pending (N.land b 0x07) 3
                 (if b =? 0xF0 then 0x90 else 0x80)
                 (if b =? 0xF4 then 0x8F else 0xBF)))
  else ([0xFFFD], None).

Fixpoint utf8_decode (st : option utf8_pending) (bytes : list N) : list N :=
  match bytes with
  | [] => match st with None => [] | Some _ => [0xFFFD] end
  | b :: rest =>
      match st with
      | None =>
          let '(out, st') := utf8_lead b in out ++ utf8_decode st' rest
      | Some p =>
          if (lower_boundary p <=? b) && (b <=? upper_boundary p) then
            let cp := N.lor (N.shiftl (code_point p) 6) (N.land b 0x3F) in
            match bytes_needed p with
            | S (S n) => utf8_decode (Some (Pending cp (S n) 0x80 0xBF)) rest
            | _ => cp :: utf8_decode None rest
            end
          else
            let '(out, st') := utf8_lead b in
            0xFFFD :: out ++ utf8_decode st' rest
      end
  end.

(** UTF-16 code units of a code point. *)
Definition utf16_encode (cp : N) : jsstring :=
  if cp <? 0x10000 then [cp]
  else let v := cp - 0x10000 in
       [0xD800 + N.shiftr v 10; 0xDC00 + N.land v 0x3FF].

Definition Buffer_toString (bytes : list N) : jsstring :=
  concat (map utf16_encode (utf8_decode None bytes)).

(** ** [escape] (ECMAScript, Annex B)

    Letters, digits and [@*_+-./] are kept; any other code unit below 256
    becomes [%XX] and any other code unit becomes [%uXXXX], with upper-case
    hexadecimal digits. *)

Definition is_digit (c : N) : bool := (code "0" <=? c) && (c <=? code "9").

Definition is_alpha (c : N) : bool :=
  ((code "A" <=? c) && (c <=? code "Z")) || ((code "a" <=? c) && (c <=? code "z")).

Definition escape_keeps (c : N) : bool :=
  is_alpha c || is_digit c || bool_decide (c ∈ js "@*_+-./").

Definition hex_digit (v : N) : N :=
  if v <? 10 then code "0" + v else code "A" + (v - 10).

Definition escape_unit (c : N) : jsstring :=
  if escape_keeps c then [c]
  else if c <? 256 then [code "%"; hex_digit (c / 16); hex_digit (c mod 16)]
  else [code "%"; code "u"; hex_digit (c / 4096); hex_digit (c / 256 mod 16);
        hex_digit (c / 16 mod 16); hex_digit (c mod 16)].

Definition escape (s : jsstring) : jsstring := concat (map escape_unit s).

(** ** [decodeURIComponent]

    Every [%XX] is an octet.  An octet below 0x80 is a character; an octet
    with [n] leading one bits (2 <= n <= 4) starts a UTF-8 sequence whose
    [n - 1] continuation octets must follow, each written [%XX], and the
    sequence must be the well-formed encoding of a code point.  Every
    other use of [%] throws a URIError, here [None]. *)

Definition hex_value (c : N) : option N :=
  if is_digit c then Some (c - code "0")
  else if (code "A" <=? c) && (c <=? code "F") then Some (c - code "A" + 10)
  else if (code "a" <=? c) && (c <=? code "f") then Some (c - code "a" + 10)
  else None.

(** The code point of a well-formed UTF-8 sequence. *)
Fixpoint utf8_continue (p : utf8_pending) (conts : list N) : option N :=
  match conts, bytes_needed p with
  | [], O => Some (code_point p)
  | b :: rest, S n =>
      if (lower_boundary p <=? b) && (b <=? upper_boundary p) then
        utf8_continue
          (Pending (N.lor (N.shiftl (code_point p) 6) (N.land b 0x3F)) n 0x80 0xBF)
          rest
      else None
  | _, _ => None
  end.

Definition utf8_code_point (octets : list N) : option N :=
  match octets with
  | b :: conts =>
      match utf8_lead b with
      | (_, Some p) => utf8_continue p conts
      | (_, None) => None
      end
  | [] => None
  end.

(** Number of octets announced by the leading one bits of a first octet. *)
Definition sequence_length (b : N) : option nat :=
  if b <? 0x80 then Some 1%nat
  else if b <? 0xC0 then None
  else if b <? 0xE0 then Some 2%nat
  else if b <? 0xF0 then Some 3%nat
  else if b <? 0xF8 then Some 4%nat
  else None.

Inductive pct_phase :=
| Plain                 (* not inside an escape *)
| HiDigit               (* after [%] *)
| LoDigit (hi : N).     (* after [%X] *)

Record uri_state := UriState {
  octets : list N;      (* octets of the sequence in progress *)
  missing : nat;        (* continuation octets still to come *)
  phase : pct_phase;
}.

Definition uri_octet (st : uri_state) (b : N) : option (jsstring * uri_state) :=
  match missing st with
  | O =>
      match sequence_length b with
      | Some 1%nat => Some ([b], UriState [] 0 Plain)
      | Some (S n) => Some ([], UriState [b] n Plain)
      | _ => None
      end
  | S O =>
      cp ← utf8_code_point (octets st ++ [b]);
      Some (utf16_encode cp, UriState [] 0 Plain)
  | S n => Some ([], UriState (octets st ++ [b]) n Plain)
  end.

Definition uri_step (st : uri_state) (c : N) : option (jsstring * uri_state) :=
  match phase st with
  | Plain =>
      if c =? code "%" then Some ([], UriState (octets st) (missing st) HiDigit)
      else match missing st with
           | O => Some ([c], st)
           | S _ => None
           end
  | HiDigit =>
      h ← hex_value c;
      Some ([], UriState (octets st) (missing st) (LoDigit h))
  | LoDigit h =>
      l ← hex_value c;
      uri_octet st (16 * h + l)
  end.

Fixpoint uri_decode (st : uri_state) (s : jsstring) : option jsstring :=
  match s with
  | [] =>
      match phase st, missing st with
      | Plain, O => Some []
      | _, _ => None
      end
  | c :: s' =>
      '(out, st') ← uri_step st c;
      rest ← uri_decode st' s';
      Some (out ++ rest)
  end.

Definition decodeURIComponent (s : jsstring) : option jsstring :=
  uri_decode (UriState [] 0 Plain) s.

(** ** [JSON.parse]

    The text is read one code unit at a time by a lexer, and the lexemes
    are assembled by a parser with an explicit stack of open arrays and
    objects.  A SyntaxError is [None]. *)

(** *** Numbers

    A Number is an IEEE 754 double.  Every finite double is a whole
    multiple of [2 ^ -1074], the least positive double: [Finite s u] is
    the double of magnitude [u * 2 ^ -1074] and sign [s] (so [Finite true 0]
    is [-0]).  A number literal never gives NaN. *)
Inductive number :=
| Finite (negative : bool) (units : N)
| Infinite (negative : bool).

(** [num / den] rounded to the nearest whole number, a tie to the even
    one. *)
Definition round_half_even (num den : N) : N :=
  let q := num / den in
  match 2 * (num mod den) ?= den with
  | Lt => q
  | Gt => q + 1
  | Eq => if N.even q then q else q + 1
  end.

(** The spacing of the doubles around [units * 2 ^ -1074], in the same
    unit: a double has 53 significant bits. *)
Definition quantum (units : N) : N := 2 ^ (N.log2 units + 1 - 53).

(** The Number value of the literal [digits * 10 ^ exponent10]: the
    nearest double, a tie going to the one with an even significand, and
    an infinity from [2 ^ 1024] on. *)
Definition round_decimal (negative : bool) (digits : N) (exponent10 : Z) : number :=
  let num := digits * 10 ^ Z.to_N exponent10 * 2 ^ 1074 in
  let den := 10 ^ Z.to_N (- exponent10) in
  let q := quantum (num / den) in
  let units := round_half_even num (den * q) * q in
  if 2 ^ 2098 <=? units then Infinite negative else Finite negative units.

Arguments round_decimal : simpl never.

(** The double that is the integer [z]; there is one when [z] is a safe
    integer. *)
Definition integer_number (z : Z) : number :=
  Finite (z <? 0)%Z (Z.abs_N z * 2 ^ 1074).

Arguments integer_number : simpl never.

#[warnings="-register-all"]
Inductive json :=
| JNull
| JBool (b : bool)
| JNumber (n : number)
| JString (s : jsstring)
| JArray (elements : list json)
| JObject (members : list (jsstring * json)).

Inductive lexeme :=
| TLBrace | TRBrace | TLBracket | TRBracket | TColon | TComma
| TValue (v : json)     (* a string, number, [true], [false] or [null] *)
.

Inductive num_phase :=
| NMinus     (* after [-] *)
| NZero      (* integer part [0] *)
| NInt       (* in the digits of the integer part *)
| NPoint     (* after [.] *)
| NFrac      (* in the digits of the fraction *)
| NExpMark   (* after [e] or [E] *)
| NExpSign   (* after the sign of the exponent *)
| NExp.      (* in the digits of the exponent *)

Record num_acc := NumAcc {
  negative : bool;
  digits : N;            (* integer and fraction digits read as one numeral *)
  fraction_length : N;
  exp_negative : bool;
  exp_digits : N;
}.

Definition num_value (a : num_acc) : number :=
  let e := Z.of_N (exp_digits a) in
  round_decimal (negative a) (digits a)
    ((if exp_negative a then - e else e) - Z.of_N (fraction_length a)).

Inductive lex_state :=
| LIdle
| LString (acc : jsstring)                (* in a string; [acc] is reversed *)
| LEscape (acc : jsstring)                (* after a backslash *)
| LUnicode (acc : jsstring) (k : nat) (v : N)   (* after [\u] and [k] digits *)
| LNumber (ph : num_phase) (a : num_acc)
| LWord (rest : jsstring) (v : json).     (* in [true], [false] or [null] *)

Definition is_json_space (c : N) : bool :=
  (c =? 0x20) || (c =? 0x09) || (c =? 0x0A) || (c =? 0x0D).

Definition digit_value (c : N) : N := c - code "0".

Definition lex_idle (c : N) : option (list lexeme * lex_state) :=
  if is_json_space c then Some ([], LIdle)
  else if c =? code "{" then Some ([TLBrace], LIdle)
  else if c =? code "}" then Some ([TRBrace], LIdle)
  else if c =? code "[" then Some ([TLBracket], LIdle)
  else if c =? code "]" then Some ([TRBracket], LIdle)
  else if c =? code ":" then Some ([TColon], LIdle)
  else if c =? code "," then Some ([TComma], LIdle)
  else if c =? 0x22 then Some ([], LString [])
  else if c =? code "-" then Some ([], LNumber NMinus (NumAcc true 0 0 false 0))
  else if c =? code "0" then Some ([], LNumber NZero (NumAcc false 0 0 false 0))
  else if is_digit c then
    Some ([], LNumber NInt (NumAcc false (digit_value c) 0 false 0))
  else if c =? code "t" then Some ([], LWord (js "rue") (JBool true))
  else if c =? code "f" then Some ([], LWord (js "alse") (JBool false))
  else if c =? code "n" then Some ([], LWord (js "ull") JNull)
  else None.

Definition push_digit (a : num_acc) (c : N) : num_acc :=
  NumAcc (negative a) (10 * digits a + digit_value c) (fraction_length a)
         (exp_negative a) (exp_digits a).

Definition push_frac_digit (a : num_acc) (c : N) : num_acc :=
  NumAcc (negative a) (10 * digits a + digit_value c) (fraction_length a + 1)
         (exp_negative a) (exp_digits a).

Definition push_exp_digit (a : num_acc) (c : N) : num_acc :=
  NumAcc (negative a) (digits a) (fraction_length a)
         (exp_negative a) (10 * exp_digits a + digit_value c).

Definition set_exp_sign (a : num_acc) (neg : bool) : num_acc :=
  NumAcc (negative a) (digits a) (fraction_length a) neg (exp_digits a).

Definition is_exp_mark (c : N) : bool := (c =? code "e") || (c =? code "E").

(** The literal ends before [c], which is then read as a new lexeme. *)
Definition end_number (a : num_acc) (c : N) : option (list lexeme * lex_state) :=
  '(toks, st) ← lex_idle c;
  Some (TValue (JNumber (num_value a)) :: toks, st).

Definition lex_number (ph : num_phase) (a : num_acc) (c : N)
  : option (list lexeme * lex_state) :=
  match ph with
  | NMinus =>
      if c =? code "0" then Some ([], LNumber NZero a)
      else if is_digit c then Some ([], LNumber NInt (push_digit a c))
      else None
  | NZero =>
      if c =? code "." then Some ([], LNumber NPoint a)
      else if is_exp_mark c then Some ([], LNumber NExpMark a)
      else end_number a c
  | NInt =>
      if is_digit c then Some ([], LNumber NInt (push_digit a c))
      else if c =? code "." then Some ([], LNumber NPoint a)
      else if is_exp_mark c then Some ([], LNumber NExpMark a)
      else end_number a c
  | NPoint =>
      if is_digit c then Some ([], LNumber NFrac (push_frac_digit a c)) else None
  | NFrac =>
      if is_digit c then Some ([], LNumber NFrac (push_frac_digit a c))
      else if is_exp_mark c then Some ([], LNumber NExpMark a)
      else end_number a c
  | NExpMark =>
      if c =? code "+" then Some ([], LNumber NExpSign a)
      else if c =? code "-" then Some ([], LNumber NExpSign (set_exp_sign a true))
      else if is_digit c then Some ([], LNumber NExp (push_exp_digit a c))
      else None
  | NExpSign =>
      if is_digit c then Some ([], LNumber NExp (push_exp_digit a c)) else None
  | NExp =>
      if is_digit c then Some ([], LNumber NExp (push_exp_digit a c))
      else end_number a c
  end.

(** The character an escape sequence [\c] stands for. *)
Definition escaped_char (c : N) : option N :=
  if c =? 0x22 then Some 0x22
  else if c =? 0x5C then Some 0x5C
  else if c =? code "/" then Some (code "/")
  else if c =? code "b" then Some 0x08
  else if c =? code "f" then Some 0x0C
  else if c =? code "n" then Some 0x0A
  else if c =? code "r" then Some 0x0D
  else if c =? code "t" then Some 0x09
  else None.

Definition lex_step (st : lex_state) (c : N) : option (list lexeme * lex_state) :=
  match st with
  | LIdle => lex_idle c
  | LString acc =>
      if c =? 0x22 then Some ([TValue (JString (rev acc))], LIdle)
      else if c =? 0x5C then Some ([], LEscape acc)
      else if c <? 0x20 then None
      else Some ([], LString (c :: acc))
  | LEscape acc =>
      if c =? code "u" then Some ([], LUnicode acc 0 0)
      else e ← escaped_char c; Some ([], LString (e :: acc))
  | LUnicode acc k v =>
      h ← hex_value c;
      match k with
      | 3%nat => Some ([], LString (16 * v + h :: acc))
      | _ => Some ([], LUnicode acc (S k) (16 * v + h))
      end
  | LNumber ph a => lex_number ph a c
  | LWord rest v =>
      match rest with
      | [x] => if c =? x then Some ([TValue v], LIdle) else None
      | x :: rest' => if c =? x then Some ([], LWord rest' v) else None
      | [] => None
      end
  end.

(** At the end of the text only a complete number may be in progress. *)
Definition lex_end (st : lex_state) : option (list lexeme) :=
  match st with
  | LIdle => Some []
  | LNumber (NZero | NInt | NFrac | NExp) a => Some [TValue (JNumber (num_value a))]
  | _ => None
  end.

Fixpoint lex (st : lex_state) (s : jsstring) : option (list lexeme) :=
  match s with
  | [] => lex_end st
  | c :: s' =>
      '(toks, st') ← lex_step st c;
      rest ← lex st' s';
      Some (toks ++ rest)
  end.

(** An array or object still open: the elements or members read so far
    (latest first) and, in an object, the key whose value is awaited. *)
Inductive frame :=
| FArray (elems : list json)
| FObject (membs : list (jsstring * json)) (key : option jsstring).

Inductive parse_mode :=
| MValue        (* a value must follow *)
| MArrayFirst   (* after [[]: a value or []] *)
| MObjectFirst  (* after [{]: a key or [}] *)
| MKey          (* after [,] in an object: a key *)
| MColon        (* after a key *)
| MAfter        (* after a value in an array or object: [,] or the closer *)
| MDone (v : json).   (* the text's value is complete *)

(** The value [v] is complete: it is the text's value, or it goes into the
    innermost open array or object. *)
Definition close_value (v : json) (stack : list frame)
  : option (parse_mode * list frame) :=
  match stack with
  | [] => Some (MDone v, [])
  | FArray es :: st => Some (MAfter, FArray (v :: es) :: st)
  | FObject ms (Some k) :: st => Some (MAfter, FObject ((k, v) :: ms) None :: st)
  | FObject _ None :: _ => None
  end.

Definition open_value (t : lexeme) (stack : list frame)
  : option (parse_mode * list frame) :=
  match t with
  | TValue v => close_value v stack
  | TLBracket => Some (MArrayFirst, FArray [] :: stack)
  | TLBrace => Some (MObjectFirst, FObject [] None :: stack)
  | _ => None
  end.

Definition read_key (t : lexeme) (stack : list frame)
  : option (parse_mode * list frame) :=
  match t, stack with
  | TValue (JString k), FObject ms None :: st => Some (MColon, FObject ms (Some k) :: st)
  | _, _ => None
  end.

Definition close_array (stack : list frame) : option (parse_mode * list frame) :=
  match stack with
  | FArray es :: st => close_value (JArray (rev es)) st
  | _ => None
  end.

Definition close_object (stack : list frame) : option (parse_mode * list frame) :=
  match stack with
  | FObject ms None :: st => close_value (JObject (rev ms)) st
  | _ => None
  end.

Definition parse_step (mode : parse_mode) (stack : list frame) (t : lexeme)
  : option (parse_mode * list frame) :=
  match mode with
  | MValue => open_value t stack
  | MArrayFirst =>
      match t with
      | TRBracket => close_array stack
      | _ => open_value t stack
      end
  | MObjectFirst =>
      match t with
      | TRBrace => close_object stack
      | _ => read_key t stack
      end
  | MKey => read_key t stack
  | MColon =>
      match t with
      | TColon => Some (MValue, stack)
      | _ => None
      end
  | MAfter =>
      match t, stack with
      | TComma, FArray _ :: _ => Some (MValue, stack)
      | TComma, FObject _ _ :: _ => Some (MKey, stack)
      | TRBracket, _ => close_array stack
      | TRBrace, _ => close_object stack
      | _, _ => None
      end
  | MDone _ => None
  end.

Fixpoint parse_tokens (mode : parse_mode) (stack : list frame) (ts : list lexeme)
  : option json :=
  match ts with
  | [] =>
      match mode with
      | MDone v => Some v
      | _ => None
      end
  | t :: ts' =>
      '(mode', stack') ← parse_step mode stack t;
      parse_tokens mode' stack' ts'
  end.

Definition JSON_parse (text : jsstring) : option json :=
  ts ← lex LIdle text;
  parse_tokens MValue [] ts.

End Platform.

Export Platform.

(** * Exceptions and results *)

(** A failure reported by superstruct: where in the value it occurred and
    which type was expected there. *)
Record Failure := { path : list jsstring; expected : string }.

Inductive exn :=
| Error (message : string)
| SyntaxError                                   (* thrown by [JSON.parse] *)
| URIError                                      (* thrown by [decodeURIComponent] *)
| StructError (failure : Failure)               (* thrown by superstruct's [assert] *)
| LogtoClientError (errorCode : string) (cause : exn).

Inductive Result (A : Type) :=
| Ok (a : A)
| Throw (e : exn).
Arguments Ok {A} a.
Arguments Throw {A} e.

#[global] Instance Result_ret : MRet Result := fun A a => Ok a.
#[global] Instance Result_bind : MBind Result := fun A B k m =>
  match m with
  | Ok a => k a
  | Throw e => Throw e
  end.

(** [try m catch h] *)
Definition try_catch {A} (m : Result A) (h : exn -> Result A) : Result A :=
  match m with
  | Ok a => Ok a
  | Throw e => h e
  end.

(** A built-in that throws [e] where its model returns [None]. *)
Definition or_throw {A} (e : exn) (o : option A) : Result A :=
  match o with
  | Some a => Ok a
  | None => Throw e
  end.

(** * superstruct *)

Module superstruct.

(** A struct checks a value ([None] is [undefined]) found at [path] and
    reports the first failure, if any. *)
Definition Struct := option json -> list jsstring -> option Failure.

Definition string : Struct := fun value path =>
  match value with
  | Some (JString _) => None
  | _ => Some {| path := path; expected := "string" |}
  end.

(** A parsed number is never NaN. *)
Definition number : Struct := fun value path =>
  match value with
  | Some (JNumber _) => None
  | _ => Some {| path := path; expected := "number" |}
  end.

Definition optional (inner : Struct) : Struct := fun value path =>
  match value with
  | None => None
  | Some _ => inner value path
  end.

(** [value[k]] for a parsed object, when [k] is not a property of
    [Object.prototype]: the latest member named [k]. *)
Fixpoint lookup_member (k : jsstring) (members : list (jsstring * json))
  : option json :=
  match members with
  | [] => None
  | (k', v) :: rest =>
      match lookup_member k rest with
      | Some v' => Some v'
      | None => if jseqb k k' then Some v else None
      end
  end.

(** [value[k]] for a parsed value that is an object or an array, when [k]
    is neither an index, nor [length], nor a property of a prototype. *)
Definition get (value : json) (k : jsstring) : option json :=
  match value with
  | JObject members => lookup_member k members
  | _ => None
  end.

(** [typeof value === 'object' && value != null] *)
Definition isObject (value : option json) : bool :=
  match value with
  | Some (JObject _) | Some (JArray _) => true
  | _ => false
  end.

Fixpoint first_failure (value : json) (path : list jsstring)
    (entries : list (jsstring * Struct)) : option Failure :=
  match entries with
  | [] => None
  | (k, s) :: rest =>
      match s (get value k) (path ++ [k]) with
      | Some f => Some f
      | None => first_failure value path rest
      end
  end.

(** [type(schema)]: an object whose listed properties match; other
    properties are allowed. *)
Definition type (schema : list (jsstring * Struct)) : Struct := fun value path =>
  match value with
  | Some v =>
      if isObject value then first_failure v path schema
      else Some {| path := path; expected := "type" |}
  | None => Some {| path := path; expected := "type" |}
  end.

Definition validate (value : json) (s : Struct) : option Failure :=
  s (Some value) [].

Definition assert (value : json) (s : Struct) : Result unit :=
  match validate value s with
  | Some f => Throw (StructError f)
  | None => Ok tt
  end.

End superstruct.

(** * utils/id-token *)

Definition IDTokenSchema : superstruct.Struct :=
  superstruct.type
    [ (js "iss", superstruct.string);
      (js "sub", superstruct.string);
      (js "aud", superstruct.string);
      (js "exp", superstruct.number);
      (js "iat", superstruct.number);
      (js "at_hash", superstruct.optional superstruct.string) ].

(** [!payloadPart], for a string or [undefined]. *)
Definition falsy (v : option jsstring) : bool :=
  match v with
  | None | Some [] => true
  | Some _ => false
  end.

(** The [try] block of [decodeToken] with its [catch]. *)
Definition parse_claims (text : jsstring) : Result json :=
  try_catch
    (data ← or_throw SyntaxError (JSON_parse text);
     _ ← superstruct.assert data IDTokenSchema;
     mret data)
    (fun error =>
       match error with
       | StructError _ => Throw error
       | _ => Throw (Error "invalid token: JSON parse failed")
       end).

(** The text handed to [JSON.parse]; [None] when [decodeURIComponent]
    throws. *)
Definition payload_json (payloadPart : jsstring) : option jsstring :=
  let payloadString :=
    replace_all (code "_") (code "/") (replace_all (code "-") (code "+") payloadPart) in
  decodeURIComponent
    (escape (Buffer_toString (Buffer_from_base64 (fullfillBase64 payloadString)))).

(** [decodeToken] after the check of [payloadPart]. *)
Definition decode_payload (payloadPart : jsstring) : Result json :=
  text ← or_throw URIError (payload_json payloadPart);
  parse_claims text.

Definition decodeToken (token : jsstring) : Result json :=
  let payloadPart := split (code ".") token !! 1%nat in
  if falsy payloadPart then Throw (Error "invalid token")
  else match payloadPart with
       | Some payloadPart => decode_payload payloadPart
       | None => Throw (Error "invalid token")
       end.

(** ** Building a token

    The producer's side of the round trip: the payload segment of a JWT is
    the base64url encoding, without padding, of the UTF-8 bytes of the
    JSON text of the claims. *)

(** [IDToken], the type inferred from [IDTokenSchema], with whole numbers
    of seconds for the two times (the object holds them as doubles, which
    are exact for safe integers). *)
Record IDToken := {
  iss : jsstring;
  sub : jsstring;
  aud : jsstring;
  exp : Z;
  iat : Z;
  at_hash : option jsstring;
}.

(** The object a claims record stands for. *)
Definition claims_object (c : IDToken) : json :=
  JObject
    ([ (js "iss", JString (iss c));
       (js "sub", JString (sub c));
       (js "aud", JString (aud c));
       (js "exp", JNumber (integer_number (exp c)));
       (js "iat", JNumber (integer_number (iat c))) ]
     ++ match at_hash c with
        | Some h => [(js "at_hash", JString h)]
        | None => []
        end).

Module Encode.

Definition lower_hex_digit (v : N) : N :=
  if v <? 10 then code "0" + v else code "a" + (v - 10).

Definition unicode_escape (c : N) : jsstring :=
  [0x5C; code "u"; lower_hex_digit (c / 4096); lower_hex_digit (c / 256 mod 16);
   lower_hex_digit (c / 16 mod 16); lower_hex_digit (c mod 16)].

Definition is_high_surrogate (c : N) : bool := (0xD800 <=? c) && (c <=? 0xDBFF).
Definition is_low_surrogate (c : N) : bool := (0xDC00 <=? c) && (c <=? 0xDFFF).

Definition quote_unit (c : N) : jsstring :=
  if c =? 0x22 then [0x5C; 0x22]
  else if c =? 0x5C then [0x5C; 0x5C]
  else if c =? 0x08 then [0x5C; code "b"]
  else if c =? 0x0C then [0x5C; code "f"]
  else if c =? 0x0A then [0x5C; code "n"]
  else if c =? 0x0D then [0x5C; code "r"]
  else if c =? 0x09 then [0x5C; code "t"]
  else if (c <? 0x20) || is_high_surrogate c || is_low_surrogate c then unicode_escape c
  else [c].

(** The characters of a string literal: a surrogate pair is kept, a lone
    surrogate is escaped. *)
Fixpoint quote_units (s : jsstring) : jsstring :=
  match s with
  | [] => []
  | c :: s' =>
      match s' with
      | d :: s'' =>
          if is_high_surrogate c && is_low_surrogate d then c :: d :: quote_units s''
          else quote_unit c ++ quote_units s'
      | [] => quote_unit c
      end
  end.

Definition quote (s : jsstring) : jsstring := [0x22] ++ quote_units s ++ [0x22].

Fixpoint decimal_digits (fuel : nat) (n : N) (acc : jsstring) : jsstring :=
  match fuel with
  | O => acc
  | S fuel' =>
      let acc' := (code "0" + n mod 10) :: acc in
      if n <? 10 then acc' else decimal_digits fuel' (n / 10) acc'
  end.

(** The decimal numeral of an integer, as [JSON.stringify] prints a safe
    integer.  The fuel exceeds the number of digits. *)
Definition integer_text (z : Z) : jsstring :=
  let n := Z.abs_N z in
  (if (z <? 0)%Z then [code "-"] else [])
  ++ decimal_digits (S (N.to_nat (N.log2 n))) n [].

(** [JSON.stringify(claims)] *)
Definition stringify (c : IDToken) : jsstring :=
  js "{" ++ quote (js "iss") ++ js ":" ++ quote (iss c)
  ++ js "," ++ quote (js "sub") ++ js ":" ++ quote (sub c)
  ++ js "," ++ quote (js "aud") ++ js ":" ++ quote (aud c)
  ++ js "," ++ quote (js "exp") ++ js ":" ++ integer_text (exp c)
  ++ js "," ++ quote (js "iat") ++ js ":" ++ integer_text (iat c)
  ++ match at_hash c with
     | Some h => js "," ++ quote (js "at_hash") ++ js ":" ++ quote h
     | None => []
     end
  ++ js "}".

(** The UTF-8 bytes of a code point. *)
Definition utf8_bytes (cp : N) : list N :=
  if cp <? 0x80 then [cp]
  else if cp <? 0x800 then [0xC0 + N.shiftr cp 6; 0x80 + N.land cp 0x3F]
  else if cp <? 0x10000 then
    [0xE0 + N.shiftr cp 12; 0x80 + N.land (N.shiftr cp 6) 0x3F; 0x80 + N.land cp 0x3F]
  else
    [0xF0 + N.shiftr cp 18; 0x80 + N.land (N.shiftr cp 12) 0x3F;
     0x80 + N.land (N.shiftr cp 6) 0x3F; 0x80 + N.land cp 0x3F].

(** The UTF-8 bytes of a string; a lone surrogate is written as U+FFFD. *)
Fixpoint utf8_encode (s : jsstring) : list N :=
  match s with
  | [] => []
  | c :: s' =>
      match s' with
      | d :: s'' =>
          if is_high_surrogate c && is_low_surrogate d then
            utf8_bytes (0x10000 + N.shiftl (c - 0xD800) 10 + (d - 0xDC00))
            ++ utf8_encode s''
          else if is_high_surrogate c || is_low_surrogate c then
            utf8_bytes 0xFFFD ++ utf8_encode s'
          else utf8_bytes c ++ utf8_encode s'
      | [] =>
          if is_high_surrogate c || is_low_surrogate c then utf8_bytes 0xFFFD
          else utf8_bytes c
      end
  end.

Definition base64url_char (v : N) : N :=
  if v <? 26 then code "A" + v
  else if v <? 52 then code "a" + (v - 26)
  else if v <? 62 then code "0" + (v - 52)
  else if v =? 62 then code "-"
  else code "_".

(** The 6-bit groups of a byte sequence: three bytes give four groups,
    two final bytes give three and one final byte gives two. *)
Fixpoint sextets (bytes : list N) : list N :=
  match bytes with
  | a :: b :: c :: r =>
      [N.shiftr a 2;
       N.lor (N.shiftl (N.land a 3) 4) (N.shiftr b 4);
       N.lor (N.shiftl (N.land b 15) 2) (N.shiftr c 6);
       N.land c 63] ++ sextets r
  | [a; b] =>
      [N.shiftr a 2;
       N.lor (N.shiftl (N.land a 3) 4) (N.shiftr b 4);
       N.shiftl (N.land b 15) 2]
  | [a] => [N.shiftr a 2; N.shiftl (N.land a 3) 4]
  | [] => []
  end.

(** base64url without padding. *)
Definition base64url (bytes : list N) : jsstring :=
  map base64url_char (sextets bytes).

(** A token with the given header and signature segments whose payload
    carries [claims]. *)
Definition token (header : jsstring) (claims : IDToken) (signature : jsstring)
  : jsstring :=
  header ++ js "." ++ base64url (utf8_encode (stringify claims))
  ++ js "." ++ signature.

End Encode.

(** ** Notions used to state and check the round trip *)

(** A text of code units below 128. *)
Definition ascii_only (s : jsstring) : Prop := Forall (fun c => c < 128) s.

(** An integer that a double holds exactly, as do its neighbours. *)
Definition safe_integer (z : Z) : Prop := (- 2 ^ 53 < z < 2 ^ 53)%Z.

(** The strings of a claims record are ASCII and its times are safe
    integers. *)
Definition plain_claims (c : IDToken) : Prop :=
  (ascii_only (iss c) /\ ascii_only (sub c) /\ ascii_only (aud c)
   /\ match at_hash c with Some h => ascii_only h | None => True end)
  /\ safe_integer (exp c) /\ safe_integer (iat c).

(** [P] holds of every number below [n]. *)
Definition all_below (n : nat) (P : N -> bool) : bool :=
  forallb P (map N.of_nat (seq 0 n)).

(** The character written for the 6-bit value [v] is read back as [v],
    after the two replacements of [decodeToken]. *)
Definition sextet_char_ok (v : N) : bool :=
  let c := replace_all (code "_") (code "/")
             (replace_all (code "-") (code "+") [Encode.base64url_char v]) in
  bool_decide (base64_sextets c = [v]).

(** Facts about one or two bytes, checked on all of them: the 6-bit
    groups are below 64, and the decoder's shifts and masks undo the
    encoder's. *)
Definition sextets_ok (a b : N) : bool :=
  let s1 := N.shiftr a 2 in
  let s2 := N.lor (N.shiftl (N.land a 3) 4) (N.shiftr b 4) in
  let s3 := N.lor (N.shiftl (N.land a 15) 2) (N.shiftr b 6) in
  let s4 := N.land b 63 in
  forallb (fun v => v <? 64)
    [s1; s2; s3; s4; N.shiftl (N.land a 3) 4; N.shiftl (N.land a 15) 2]
  && (N.lor (N.shiftl (N.land s1 0x3F) 2) (N.shiftr (N.land s2 0x30) 4) =? a)
  && (N.land s2 0x0F =? N.shiftr b 4)
  && (N.shiftr (N.land s3 0x3C) 2 =? N.land a 15)
  && (N.land s3 0x03 =? N.shiftr b 6)
  && (N.lor (N.shiftl (N.shiftr a 4) 4) (N.land a 15) =? a)
  && (N.lor (N.shiftl (N.shiftr a 6) 6) (N.land (N.land a 63) 0x3F) =? a)
  && bool_decide (base64_bytes (Encode.sextets [a; b]) = [a; b])
  && bool_decide (base64_bytes (Encode.sextets [a]) = [a]).

(** The number a run of decimal digits denotes, continuing from [v]. *)
Definition digits_value (ds : jsstring) (v : N) : N :=
  fold_left (fun v c => 10 * v + digit_value c) ds v.

(** A character that ends a number and is a lexeme of its own. *)
Definition delimits (d : N) (t : lexeme) : Prop :=
  (d = code "," /\ t = TComma) \/ (d = code "}" /\ t = TRBrace).

(** * LogtoClient *)

(** Modelled from the spec: [OidcConfigResponse] is declared in @logto/js,
    outside the files at hand; the discovery document holds the
    authorization, token, end-session and revocation endpoints and the
    JWKS URI. *)
Record OidcConfigResponse := {
  authorizationEndpoint : jsstring;
  tokenEndpoint : jsstring;
  endSessionEndpoint : jsstring;
  revocationEndpoint : jsstring;
  jwksUri : jsstring;
}.

Record AccessToken := {
  token : jsstring;
  scope : jsstring;
  expiresAt : Z;     (* Unix timestamp in seconds *)
}.

Definition LogtoSignInSessionItemSchema : superstruct.Struct :=
  superstruct.type
    [ (js "redirectUri", superstruct.string);
      (js "codeVerifier", superstruct.string);
      (js "state", superstruct.string) ].

(** What the client does to the outside world, in program order. *)
Inductive Effect :=
| FetchOidcConfig (discoveryEndpoint : jsstring)
| Revoke (revocationEndpoint clientId refreshToken : jsstring)
| LocalStorageRemoveItem (key : jsstring)
| LocationAssign (url : jsstring).

Section LogtoClient.

(** The HTTP requester of the configuration, handed on to the
    collaborators. *)
Variable Requester : Type.

Record LogtoConfig := {
  endpoint : jsstring;
  clientId : jsstring;
  scopes : option (list jsstring);
  resources : option (list jsstring);
  usingPersistStorage : option bool;
  requester : Requester;
}.

Record LogtoClient := {
  accessTokenMap : gmap (list N) AccessToken;
  refreshToken : option jsstring;
  idToken : option jsstring;
  logtoConfig : LogtoConfig;
  oidcConfig : option OidcConfigResponse;
  logtoStorageKey : jsstring;
}.

(** The client, the two web storages and the effects so far. *)
Record World := {
  this : LogtoClient;
  localStorage : gmap (list N) (list N);
  sessionStorage : gmap (list N) (list N);
  effects : list Effect;
}.

(** What surrounds the client: two functions of the repository that live
    outside the files at hand, and the answers of the collaborators and
    of the browser (the discovery fetch, the revocation request and the
    navigation either complete or throw). *)
Record Collaborators := {
  getDiscoveryEndpoint : jsstring -> jsstring;
  generateSignOutUri :
    forall (endSessionEndpoint : jsstring) (postLogoutRedirectUri idToken : option jsstring),
      jsstring;
  fetchOidcConfig : jsstring -> Requester -> Result OidcConfigResponse;
  revoke : jsstring -> jsstring -> jsstring -> Requester -> Result unit;
  location_assign : jsstring -> Result unit;
}.

Variable env : Collaborators.

(** ** Computations on the world that may throw

    A thrown exception leaves the world as it was when it was thrown. *)
Definition M (A : Type) : Type := World -> Result A * World.

#[local] Instance M_ret : MRet M := fun A a w => (Ok a, w).
#[local] Instance M_bind : MBind M := fun A B k m w =>
  match m w with
  | (Ok a, w') => k a w'
  | (Throw e, w') => (Throw e, w')
  end.

Definition catch {A} (m : M A) (h : exn -> M A) : M A := fun w =>
  match m w with
  | (Ok a, w') => (Ok a, w')
  | (Throw e, w') => h e w'
  end.

Definition get_this : M LogtoClient := fun w => (Ok (this w), w).

Definition set_this (c : LogtoClient) : M unit := fun w =>
  (Ok tt, {| this := c; localStorage := localStorage w;
             sessionStorage := sessionStorage w; effects := effects w |}).

(** An outside call: it is recorded and its answer returned. *)
Definition perform {A} (e : Effect) (answer : Result A) : M A := fun w =>
  (answer, {| this := this w; localStorage := localStorage w;
              sessionStorage := sessionStorage w; effects := effects w ++ [e] |}).

Definition localStorage_removeItem (key : jsstring) : M unit := fun w =>
  (Ok tt, {| this := this w; localStorage := delete key (localStorage w);
             sessionStorage := sessionStorage w;
             effects := effects w ++ [LocalStorageRemoveItem key] |}).

(** [Boolean(this.idToken)] *)
Definition isAuthenticated (c : LogtoClient) : bool := negb (falsy (idToken c)).

(** ** The sign-in session getter *)

Definition signInSession (w : World) : Result (option json) :=
  let jsonItem := sessionStorage w !! logtoStorageKey (this w) in
  if falsy jsonItem then Ok None
  else match jsonItem with
       | Some jsonItem =>
           try_catch
             (item ← or_throw SyntaxError (JSON_parse jsonItem);
              _ ← superstruct.assert item LogtoSignInSessionItemSchema;
              mret (Some item))
             (fun error => Throw (LogtoClientError "sign_in_session.invalid" error))
       | None => Ok None
       end.

(** ** [getOidcConfig]

    The function suspends at its [await].  [getOidcConfig_enter] is the
    part before it and [getOidcConfig_resume] the part after it, run when
    the fetch has resolved. *)

Inductive Entered :=
| Returns (config : OidcConfigResponse)     (* the cached document *)
| Awaits (discoveryEndpoint : jsstring).    (* a fetch was started *)

Definition getOidcConfig_enter (c : LogtoClient) : Entered :=
  match oidcConfig c with
  | Some config => Returns config
  | None => Awaits (getDiscoveryEndpoint env (endpoint (logtoConfig c)))
  end.

Definition set_oidcConfig (config : OidcConfigResponse) (c : LogtoClient)
  : LogtoClient :=
  {| accessTokenMap := accessTokenMap c; refreshToken := refreshToken c;
     idToken := idToken c; logtoConfig := logtoConfig c;
     oidcConfig := Some config; logtoStorageKey := logtoStorageKey c |}.

(** The client after the assignment, and the value returned. *)
Definition getOidcConfig_resume (config : OidcConfigResponse) (c : LogtoClient)
  : LogtoClient * OidcConfigResponse :=
  (set_oidcConfig config c, config).

(** [await this.getOidcConfig()] when nothing else runs in between. *)
Definition getOidcConfig : M OidcConfigResponse :=
  c ← get_this;
  match getOidcConfig_enter c with
  | Returns config => mret config
  | Awaits discoveryEndpoint =>
      config ← perform (FetchOidcConfig discoveryEndpoint)
                 (fetchOidcConfig env discoveryEndpoint (requester (logtoConfig c)));
      c ← get_this;
      let '(c', result) := getOidcConfig_resume config c in
      _ ← set_this c';
      mret result
  end.

(** ** [signOut] *)

(** The client after [accessTokenMap.clear()] and the two assignments of
    [undefined]. *)
Definition clear_tokens (c : LogtoClient) : LogtoClient :=
  {| accessTokenMap := ∅; refreshToken := None; idToken := None;
     logtoConfig := logtoConfig c; oidcConfig := oidcConfig c;
     logtoStorageKey := logtoStorageKey c |}.

Definition signOut (postLogoutRedirectUri : option jsstring) : M unit :=
  c ← get_this;
  if falsy (idToken c) then mret tt
  else
    let clientId := clientId (logtoConfig c) in
    let requester := requester (logtoConfig c) in
    config ← getOidcConfig;
    c ← get_this;
    _ ← (if falsy (refreshToken c) then mret tt
         else match refreshToken c with
              | Some refreshToken =>
                  catch
                    (perform (Revoke (revocationEndpoint config) clientId refreshToken)
                       (revoke env (revocationEndpoint config) clientId refreshToken
                          requester))
                    (fun _ => mret tt)
              | None => mret tt
              end);
    c ← get_this;
    let url :=
      generateSignOutUri env (endSessionEndpoint config) postLogoutRedirectUri
        (idToken c) in
    _ ← localStorage_removeItem (logtoStorageKey c ++ js ":idToken");
    c ← get_this;
    _ ← localStorage_removeItem (logtoStorageKey c ++ js ":refreshToken");
    c ← get_this;
    _ ← set_this (clear_tokens c);
    perform (LocationAssign url) (location_assign env url).

(** The revocation request [signOut] makes: one when a refresh token is
    held, none otherwise. *)
Definition revocation_effects (config : OidcConfigResponse) (c : LogtoClient)
  : list Effect :=
  match refreshToken c with
  | Some (t :: ts) =>
      [Revoke (revocationEndpoint config) (clientId (logtoConfig c)) (t :: ts)]
  | _ => []
  end.

(** ** Calls of [getOidcConfig] that overlap

    Callers share the client.  A call runs up to its [await] at once; it
    runs on when the fetch it waits for settles. *)

Inductive Caller :=
| Waiting (request : nat)                (* suspended on the fetch numbered [request] *)
| Fulfilled (config : OidcConfigResponse)
| Rejected (e : exn).

Record Loop := {
  client : LogtoClient;
  fetches : list jsstring;     (* the discovery fetches started so far *)
  callers : list Caller;       (* one entry per call, in call order *)
}.

Inductive Event :=
| Call                                                     (* [getOidcConfig()] is called *)
| Settle (request : nat) (answer : Result OidcConfigResponse).   (* a fetch settles *)

Definition is_waiting (request : nat) (k : Caller) : bool :=
  match k with
  | Waiting r => (r =? request)%nat
  | _ => false
  end.

Definition loop_step (l : Loop) (e : Event) : Loop :=
  match e with
  | Call =>
      match getOidcConfig_enter (client l) with
      | Returns config =>
          {| client := client l; fetches := fetches l;
             callers := callers l ++ [Fulfilled config] |}
      | Awaits discoveryEndpoint =>
          {| client := client l; fetches := fetches l ++ [discoveryEndpoint];
             callers := callers l ++ [Waiting (length (fetches l))] |}
      end
  | Settle request answer =>
      if existsb (is_waiting request) (callers l) then
        match answer with
        | Ok config =>
            let '(c', result) := getOidcConfig_resume config (client l) in
            {| client := c'; fetches := fetches l;
               callers := map (fun k => if is_waiting request k then Fulfilled result else k)
                            (callers l) |}
        | Throw e =>
            {| client := client l; fetches := fetches l;
               callers := map (fun k => if is_waiting request k then Rejected e else k)
                            (callers l) |}
        end
      else l
  end.

Definition loop_run (l : Loop) (events : list Event) : Loop :=
  fold_left loop_step events l.

(** A client on which nothing has been called yet. *)
Definition loop_start (c : LogtoClient) : Loop :=
  {| client := c; fetches := []; callers := [] |}.

End LogtoClient.

Arguments Collaborators : clear implicits.
Arguments endpoint {Requester}.
Arguments clientId {Requester}.
Arguments requester {Requester}.
Arguments accessTokenMap {Requester}.
Arguments refreshToken {Requester}.
Arguments idToken {Requester}.
Arguments logtoConfig {Requester}.
Arguments oidcConfig {Requester}.
Arguments logtoStorageKey {Requester}.
Arguments this {Requester}.
Arguments localStorage {Requester}.
Arguments sessionStorage {Requester}.
Arguments effects {Requester}.
Arguments getDiscoveryEndpoint {Requester}.
Arguments generateSignOutUri {Requester}.
Arguments fetchOidcConfig {Requester}.
Arguments revoke {Requester}.
Arguments location_assign {Requester}.
Arguments isAuthenticated {Requester}.
Arguments signInSession {Requester}.
Arguments getOidcConfig_enter {Requester}.
Arguments getOidcConfig_resume {Requester}.
Arguments set_oidcConfig {Requester}.
Arguments getOidcConfig {Requester}.
Arguments clear_tokens {Requester}.
Arguments signOut {Requester}.
Arguments revocation_effects {Requester}.
Arguments client {Requester}.
Arguments fetches {Requester}.
Arguments callers {Requester}.
Arguments loop_step {Requester}.
Arguments loop_run {Requester}.
Arguments loop_start {Requester}.
Arguments perform {Requester A}.

(** ** A sample setting

    A signed-in client with its storages and two discovery documents. *)

Module Sample.

Definition config : OidcConfigResponse :=
  {| authorizationEndpoint := js "https://logto.dev/oidc/auth";
     tokenEndpoint := js "https://logto.dev/oidc/token";
     endSessionEndpoint := js "https://logto.dev/oidc/session/end";
     revocationEndpoint := js "https://logto.dev/oidc/token/revocation";
     jwksUri := js "https://logto.dev/oidc/jwks" |}.

(** The document after the provider has moved its end-session endpoint. *)
Definition config' : OidcConfigResponse :=
  {| authorizationEndpoint := js "https://logto.dev/oidc/auth";
     tokenEndpoint := js "https://logto.dev/oidc/token";
     endSessionEndpoint := js "https://logto.dev/oidc/logout";
     revocationEndpoint := js "https://logto.dev/oidc/token/revocation";
     jwksUri := js "https://logto.dev/oidc/jwks" |}.

Definition settings : LogtoConfig unit :=
  {| endpoint := js "https://logto.dev"; clientId := js "app";
     scopes := None; resources := None; usingPersistStorage := None;
     requester := tt |}.

Definition signed_in : LogtoClient unit :=
  {| accessTokenMap :=
       {[ js "@" := {| token := js "at"; scope := js "openid"; expiresAt := 1700000000 |} ]};
     refreshToken := Some (js "rt");
     idToken := Some (js "h.e30.s");
     logtoConfig := settings;
     oidcConfig := None;
     logtoStorageKey := js "logto:app" |}.

Definition signed_out : LogtoClient unit :=
  {| accessTokenMap := ∅; refreshToken := None; idToken := None;
     logtoConfig := settings; oidcConfig := None;
     logtoStorageKey := js "logto:app" |}.

Definition world (c : LogtoClient unit) (session : gmap (list N) (list N))
  : World unit :=
  {| this := c;
     localStorage :=
       {[ js "logto:app:idToken" := js "h.e30.s"; js "logto:app:refreshToken" := js "rt" ]};
     sessionStorage := session;
     effects := [] |}.

(** Collaborators whose discovery fetch and revocation request answer as
    given; the navigation completes. *)
Definition env (fetched : Result OidcConfigResponse) (revoked : Result unit)
  : Collaborators unit :=
  {| getDiscoveryEndpoint := fun endpoint =>
       endpoint ++ js "/oidc/.well-known/openid-configuration";
     generateSignOutUri := fun endSessionEndpoint postLogoutRedirectUri idToken =>
       endSessionEndpoint ++ js "?id_token_hint=" ++ default [] idToken
       ++ match postLogoutRedirectUri with
          | Some uri => js "&post_logout_redirect_uri=" ++ uri
          | None => []
          end;
     fetchOidcConfig := fun _ _ => fetched;
     revoke := fun _ _ _ _ => revoked;
     location_assign := fun _ => Ok tt |}.

End Sample.

(** * LogtoClient: construction, the sign-in session setter and [signIn] *)

(** [conditional] of @silverhand/essentials: the value when it is truthy,
    [undefined] otherwise. *)
Definition conditional (value : option jsstring) : option jsstring :=
  if falsy value then None else value.

(** [LogtoSignInSessionItem], the type inferred from
    [LogtoSignInSessionItemSchema]. *)
Record LogtoSignInSessionItem := {
  redirectUri : jsstring;
  codeVerifier : jsstring;
  state : jsstring;
}.

(** The object [{ redirectUri, codeVerifier, state }] that [signIn]
    builds. *)
Definition item_object (item : LogtoSignInSessionItem) : json :=
  JObject
    [ (js "redirectUri", JString (redirectUri item));
      (js "codeVerifier", JString (codeVerifier item));
      (js "state", JString (state item)) ].

(** [JSON.stringify] of that object: its properties in the order in which
    the object literal lists them. *)
Definition stringify_item (item : LogtoSignInSessionItem) : jsstring :=
  js "{" ++ Encode.quote (js "redirectUri") ++ js ":" ++ Encode.quote (redirectUri item)
  ++ js "," ++ Encode.quote (js "codeVerifier") ++ js ":"
  ++ Encode.quote (codeVerifier item)
  ++ js "," ++ Encode.quote (js "state") ++ js ":" ++ Encode.quote (state item)
  ++ js "}".

(** A string of 16-bit code units. *)
Definition well_formed (s : jsstring) : Prop := Forall (fun c => c < 0x10000) s.

Definition well_formed_item (item : LogtoSignInSessionItem) : Prop :=
  well_formed (redirectUri item) /\ well_formed (codeVerifier item)
  /\ well_formed (state item).

(** [segments.join(sep)] *)
Fixpoint join (sep : N) (segments : list jsstring) : jsstring :=
  match segments with
  | [] => []
  | [seg] => seg
  | seg :: rest => seg ++ sep :: join sep rest
  end.

Section SignIn.

Variable Requester : Type.
Variable env : Collaborators Requester.

#[local] Existing Instance M_ret.
#[local] Existing Instance M_bind.

(** What [signIn] calls besides: functions of @logto/js that live outside
    the files at hand.  The two generators are random; the record holds
    what they return on this call.  The code challenge is computed
    asynchronously and may throw. *)
Record SignInCollaborators := {
  generateCodeVerifier : jsstring;
  generateCodeChallenge : jsstring -> Result jsstring;
  generateState : jsstring;
  withReservedScopes : option (list jsstring) -> jsstring;
  generateSignInUri :
    forall (authorizationEndpoint clientId redirectUri codeChallenge state : jsstring)
           (scopes : list jsstring) (resources : option (list jsstring)),
      jsstring;
}.

Variable gen : SignInCollaborators.

(** [getLogtoKey] of ./utils, outside the files at hand. *)
Variable getLogtoKey : jsstring -> jsstring.

(** ** The constructor

    It reads the two durable slots; the access-token map starts empty and
    no discovery document is cached. *)
Definition new_LogtoClient (config : LogtoConfig Requester)
    (storage : gmap (list N) (list N)) : LogtoClient Requester :=
  let key := getLogtoKey (clientId config) in
  {| accessTokenMap := ∅;
     refreshToken := conditional (storage !! (key ++ js ":refreshToken"));
     idToken := conditional (storage !! (key ++ js ":idToken"));
     logtoConfig := config;
     oidcConfig := None;
     logtoStorageKey := key |}.

(** ** The sign-in session setter

    The write shows in the session storage. *)

Definition sessionStorage_setItem (key value : jsstring) : M Requester unit :=
  fun w =>
    (Ok tt, {| this := this w; localStorage := localStorage w;
               sessionStorage := <[key := value]> (sessionStorage w);
               effects := effects w |}).

Definition sessionStorage_removeItem (key : jsstring) : M Requester unit :=
  fun w =>
    (Ok tt, {| this := this w; localStorage := localStorage w;
               sessionStorage := delete key (sessionStorage w);
               effects := effects w |}).

Definition set_signInSession (logtoSignInSessionItem : option LogtoSignInSessionItem)
  : M Requester unit :=
  c ← get_this Requester;
  match logtoSignInSessionItem with
  | None => sessionStorage_removeItem (logtoStorageKey c)
  | Some item => sessionStorage_setItem (logtoStorageKey c) (stringify_item item)
  end.

(** ** [signIn] *)

(** The answer of a computation that touches nothing. *)
Definition answer {A} (r : Result A) : M Requester A := fun w => (r, w).

Definition signIn (redirectUri : jsstring) : M Requester unit :=
  c ← get_this Requester;
  let clientId := clientId (logtoConfig c) in
  let resources := resources Requester (logtoConfig c) in
  let customScopes := scopes Requester (logtoConfig c) in
  config ← getOidcConfig env;
  let authorizationEndpoint := authorizationEndpoint config in
  let codeVerifier := generateCodeVerifier gen in
  codeChallenge ← answer (generateCodeChallenge gen codeVerifier);
  let state := generateState gen in
  let scopes := split (code " ") (withReservedScopes gen customScopes) in
  let signInUri :=
    generateSignInUri gen authorizationEndpoint clientId redirectUri codeChallenge
      state scopes resources in
  _ ← set_signInSession
        (Some {| redirectUri := redirectUri; codeVerifier := codeVerifier;
                 state := state |});
  perform (LocationAssign signInUri) (location_assign env signInUri).

End SignIn.

Arguments generateCodeVerifier : clear implicits.
Arguments generateCodeChallenge : clear implicits.
Arguments generateState : clear implicits.
Arguments withReservedScopes : clear implicits.
Arguments generateSignInUri : clear implicits.
Arguments new_LogtoClient {Requester}.
Arguments set_signInSession {Requester}.
Arguments signIn {Requester}.

(** A sample of what surrounds [signIn]. *)
Module SignInSample.

Definition gen (challenge : Result (list N)) : SignInCollaborators :=
  {| generateCodeVerifier := js "tfNrnfQ5xFRyFZcnwQaGcMVp_n1mGUvTwnNlvV7dWSk";
     generateCodeChallenge := fun _ => challenge;
     generateState := js "3t0pDbNRmFYbJYvKOAuiPg";
     withReservedScopes := fun customScopes =>
       join (code " ") (default [] customScopes ++ [js "openid"; js "offline_access"]);
     generateSignInUri :=
       fun authorizationEndpoint clientId redirectUri codeChallenge state scopes _ =>
         authorizationEndpoint ++ js "?client_id=" ++ clientId
         ++ js "&redirect_uri=" ++ redirectUri
         ++ js "&code_challenge=" ++ codeChallenge
         ++ js "&state=" ++ state
         ++ js "&scope=" ++ join (code "+") scopes |}.

Definition getLogtoKey (clientId : list N) : list N := js "logto:" ++ clientId.

End SignInSample.

(** * Properties of [decodeToken] *)

Lemma split_not_nil sep s : split sep s <> [].
Proof.
  destruct s as [|c s]; simpl; [discriminate|].
  destruct (c =? sep); [discriminate|].
  destruct (split sep s); discriminate.
Qed.

(** A token with a non-empty second segment is decoded from that segment. *)
Lemma decodeToken_payload token payloadPart :
  split (code ".") token !! 1%nat = Some payloadPart ->
  payloadPart <> [] ->
  decodeToken token = decode_payload payloadPart.
Proof.
  intros Hseg Hne. unfold decodeToken. rewrite Hseg.
  destruct payloadPart; [congruence | reflexivity].
Qed.

Lemma parse_claims_syntax_error text :
  JSON_parse text = None ->
  parse_claims text = Throw (Error "invalid token: JSON parse failed").
Proof. intros H. unfold parse_claims. rewrite H. reflexivity. Qed.

Lemma parse_claims_struct_error text data f :
  JSON_parse text = Some data ->
  superstruct.validate data IDTokenSchema = Some f ->
  parse_claims text = Throw (StructError f).
Proof.
  intros Hp Hv. unfold parse_claims, superstruct.assert.
  rewrite Hp. simpl. rewrite Hv. reflexivity.
Qed.

Lemma parse_claims_ok text data :
  JSON_parse text = Some data ->
  superstruct.validate data IDTokenSchema = None ->
  parse_claims text = Ok data.
Proof.
  intros Hp Hv. unfold parse_claims, superstruct.assert.
  rewrite Hp. simpl. rewrite Hv. reflexivity.
Qed.

(** What [parse_claims] returns tells which of the three cases held. *)
Lemma parse_claims_cases text :
  (JSON_parse text = None /\
   parse_claims text = Throw (Error "invalid token: JSON parse failed"))
  \/ (exists data f, JSON_parse text = Some data /\
        superstruct.validate data IDTokenSchema = Some f /\
        parse_claims text = Throw (StructError f))
  \/ (exists data, JSON_parse text = Some data /\
        superstruct.validate data IDTokenSchema = None /\
        parse_claims text = Ok data).
Proof.
  destruct (JSON_parse text) as [data|] eqn:Hp.
  - destruct (superstruct.validate data IDTokenSchema) as [f|] eqn:Hv.
    + right; left. exists data, f. eauto using parse_claims_struct_error.
    + right; right. exists data. eauto using parse_claims_ok.
  - left. eauto using parse_claims_syntax_error.
Qed.

Lemma decode_payload_not_format_error payloadPart :
  decode_payload payloadPart <> Throw (Error "invalid token").
Proof.
  unfold decode_payload.
  destruct (payload_json payloadPart) as [text|]; simpl; [|discriminate].
  destruct (parse_claims_cases text) as [[_ H]|[(d & f & _ & _ & H)|(d & _ & _ & H)]];
    rewrite H; discriminate.
Qed.

(** C5: a token with no second dot-separated segment (no dot at all, the
    empty token included) is refused with the error 'invalid token'. *)
Theorem decodeToken_without_payload_segment token :
  (length (split (code ".") token) <= 1)%nat ->
  decodeToken token = Throw (Error "invalid token").
Proof.
  intros Hlen. unfold decodeToken.
  destruct (split (code ".") token) as [|seg [|seg' segs]] eqn:Hs.
  - reflexivity.
  - reflexivity.
  - simpl in Hlen. lia.
Qed.

Lemma decodeToken_without_payload_segment_witness :
  decodeToken (js "eyJhbGciOiJSUzI1NiJ9") = Throw (Error "invalid token")
  /\ decodeToken (js "") = Throw (Error "invalid token").
Proof.
  split; apply decodeToken_without_payload_segment; vm_compute; lia.
Defined.

(** The tokens of the previous theorem are those without a dot. *)
Lemma split_one_segment sep s :
  (length (split sep s) <= 1)%nat <-> sep ∉ s.
Proof.
  induction s as [|c s IH]; simpl.
  - split; [intros _; apply not_elem_of_nil | lia].
  - destruct (N.eqb_spec c sep) as [->|Hne]; simpl.
    + pose proof (split_not_nil sep s) as Hnil.
      destruct (split sep s); [congruence|]. simpl.
      split; [lia | intros Hin; exfalso; apply Hin; left].
    + destruct (split sep s) as [|seg segs] eqn:Hs; [destruct (split_not_nil _ _ Hs)|].
      simpl in *. rewrite IH. rewrite elem_of_cons. intuition congruence.
Qed.

(** X16: a token with a non-empty payload segment has one of four
    outcomes, decided by the text that lines 43-46 make of the payload:
    a URIError exactly when [decodeURIComponent] refuses it (nothing is
    parsed then); the generic error 'invalid token: JSON parse failed'
    exactly when the text is not JSON; superstruct's StructError exactly
    when the text is JSON that does not match [IDTokenSchema] (it carries
    the failure found); the claims exactly when the text parses and
    matches. *)
Theorem decodeToken_failure_kinds token payloadPart :
  split (code ".") token !! 1%nat = Some payloadPart ->
  payloadPart <> [] ->
  (decodeToken token = Throw (Error "invalid token: JSON parse failed")
     <-> exists text, payload_json payloadPart = Some text
           /\ JSON_parse text = None)
  /\ (forall f, decodeToken token = Throw (StructError f)
        <-> exists text data, payload_json payloadPart = Some text
              /\ JSON_parse text = Some data
              /\ superstruct.validate data IDTokenSchema = Some f)
  /\ (forall data, decodeToken token = Ok data
        <-> exists text, payload_json payloadPart = Some text
              /\ JSON_parse text = Some data
              /\ superstruct.validate data IDTokenSchema = None)
  /\ (decodeToken token = Throw URIError <-> payload_json payloadPart = None).
Proof.
  intros Hseg Hne.
  rewrite (decodeToken_payload _ _ Hseg Hne).
  unfold decode_payload.
  destruct (payload_json payloadPart) as [text|]; simpl.
  - destruct (parse_claims_cases text)
      as [[Hp H]|[(d & f & Hp & Hv & H)|(d & Hp & Hv & H)]]; rewrite H.
    + repeat split; try discriminate; eauto.
      * intros (t & d & [= <-] & Hd & _). congruence.
      * intros (t & [= <-] & Hd & _). congruence.
    + repeat split; try discriminate.
      * intros (t & [= <-] & Hd). congruence.
      * intros [= <-]. eauto.
      * intros (t & d' & [= <-] & Hd & Hv'). congruence.
      * intros (t & [= <-] & Hd & Hv'). congruence.
    + repeat split; try discriminate.
      * intros (t & [= <-] & Hd). congruence.
      * intros (t & d' & [= <-] & Hd & Hv'). congruence.
      * intros [= <-]. eauto.
      * intros (t & [= <-] & Hd & Hv'). congruence.
  - repeat split; try discriminate; try reflexivity.
    + intros (t & Ht & _). discriminate.
    + intros (t & d & Ht & _). discriminate.
    + intros (t & Ht & _). discriminate.
Qed.

Lemma decodeToken_failure_kinds_witness :
  decodeToken (js "h.e30.s")
    = Throw (StructError {| path := [js "iss"]; expected := "string" |})
  /\ decodeToken (js "h.e3.s") = Throw (Error "invalid token: JSON parse failed").
Proof.
  split.
  - apply (decodeToken_failure_kinds (js "h.e30.s") (js "e30"));
      [reflexivity | discriminate |].
    exists (js "{}"), (JObject []). repeat split; reflexivity.
  - apply (decodeToken_failure_kinds (js "h.e3.s") (js "e3"));
      [reflexivity | discriminate |].
    exists (js "{"). split; reflexivity.
Defined.

(** C10: only the second segment is read.  Tokens that share a non-empty
    second segment decode alike, whatever their first segment and whatever
    follows the second one (nothing, a signature, or more segments), and
    none of them is refused with the format error 'invalid token'. *)
Theorem decodeToken_reads_second_segment_only token token' payloadPart :
  split (code ".") token !! 1%nat = Some payloadPart ->
  split (code ".") token' !! 1%nat = Some payloadPart ->
  payloadPart <> [] ->
  decodeToken token = decodeToken token'
  /\ decodeToken token = decode_payload payloadPart
  /\ decodeToken token <> Throw (Error "invalid token").
Proof.
  intros H1 H2 Hne.
  rewrite (decodeToken_payload _ _ H1 Hne), (decodeToken_payload _ _ H2 Hne).
  auto using decode_payload_not_format_error.
Qed.

Lemma decodeToken_reads_second_segment_only_witness :
  decodeToken (js "eyJhbGciOiJSUzI1NiJ9.e30") = decodeToken (js "x.e30.sig.more.parts")
  /\ decodeToken (js "eyJhbGciOiJSUzI1NiJ9.e30") = decode_payload (js "e30")
  /\ decodeToken (js "eyJhbGciOiJSUzI1NiJ9.e30") <> Throw (Error "invalid token").
Proof.
  apply (decodeToken_reads_second_segment_only _ _ (js "e30"));
    [reflexivity | reflexivity | discriminate].
Defined.

(** The second segment of a token written out: a first segment, a dot, the
    payload, and then nothing or a dot and anything. *)
Lemma split_without_separator sep s : sep ∉ s -> split sep s = [s].
Proof.
  induction s as [|c s IH]; intros Hnot; [reflexivity|].
  apply not_elem_of_cons in Hnot as [Hc Hs]. simpl.
  destruct (N.eqb_spec c sep); [congruence|]. rewrite (IH Hs). reflexivity.
Qed.

Lemma split_at_separator sep s rest :
  sep ∉ s -> split sep (s ++ sep :: rest) = s :: split sep rest.
Proof.
  induction s as [|c s IH]; intros Hnot; simpl.
  - rewrite N.eqb_refl. reflexivity.
  - apply not_elem_of_cons in Hnot as [Hc Hs].
    destruct (N.eqb_spec c sep); [congruence|]. rewrite (IH Hs). reflexivity.
Qed.

Lemma second_segment header payloadPart tail :
  code "." ∉ header ->
  code "." ∉ payloadPart ->
  tail = [] \/ (exists more, tail = code "." :: more) ->
  split (code ".") (header ++ code "." :: payloadPart ++ tail) !! 1%nat
    = Some payloadPart.
Proof.
  intros Hh Hp Htail. rewrite (split_at_separator _ _ _ Hh).
  destruct Htail as [->|[more ->]].
  - rewrite app_nil_r, (split_without_separator _ _ Hp). reflexivity.
  - rewrite (split_at_separator _ _ _ Hp). reflexivity.
Qed.

(** [fullfillBase64] looks at the whole length of its input. *)
Lemma fullfillBase64_longer_input input :
  (3 < length input)%nat -> fullfillBase64 input = input.
Proof.
  intros Hlen. unfold fullfillBase64.
  destruct (Nat.eqb_spec (length input) 2); [lia|].
  destruct (Nat.eqb_spec (length input) 3); [lia|]. reflexivity.
Qed.

(** C1, at a payload of 114 characters (two more than a multiple of 4):
    [fullfillBase64] appends nothing, so the text handed to the decoder is
    not padded to a multiple of 4.  The token still decodes, because the
    decoder accepts missing padding. *)
Theorem fullfillBase64_no_padding_beyond_three_characters :
  let payloadString :=
    js "eyJpc3MiOiJodHRwczovL2xvZ3RvLmRldiIsInN1YiI6InVzZSIsImF1ZCI6ImFwcCIsImV4cCI6MTcwMDAwMDAwMCwiaWF0IjoxNjk5OTkwMDAwfQ" in
  let claims :=
    {| iss := js "https://logto.dev"; sub := js "use"; aud := js "app";
       exp := 1700000000; iat := 1699990000; at_hash := None |} in
  (length payloadString mod 4 = 2)%nat
  /\ fullfillBase64 payloadString = payloadString
  /\ fullfillBase64 payloadString <> payloadString ++ js "=="
  /\ decodeToken (js "eyJhbGciOiJSUzI1NiJ9." ++ payloadString ++ js ".sig")
     = Ok (claims_object claims).
Proof.
  intros payloadString claims. split; [reflexivity|]. split; [|split].
  - apply fullfillBase64_longer_input. vm_compute. lia.
  - intros H. apply (f_equal (@length N)) in H. vm_compute in H. discriminate.
  - vm_compute. reflexivity.
Qed.

(** C7, at a claims object whose audience is 'café' (its last character is
    U+00E9): the object matches [IDTokenSchema], and decoding the token
    that carries it throws a URIError instead of returning the object.
    [Buffer.toString] has already decoded the UTF-8 bytes, so [escape]
    writes U+00E9 as [%E9], which [decodeURIComponent] refuses. *)
Theorem decodeToken_round_trip_non_ascii :
  let claims :=
    {| iss := js "https://logto.dev"; sub := js "user"; aud := js "caf" ++ [0xE9];
       exp := 1700000000; iat := 1699990000; at_hash := None |} in
  let token :=
    js "eyJhbGciOiJSUzI1NiJ9.eyJpc3MiOiJodHRwczovL2xvZ3RvLmRldiIsInN1YiI6InVzZXIiLCJhdWQiOiJjYWbDqSIsImV4cCI6MTcwMDAwMDAwMCwiaWF0IjoxNjk5OTkwMDAwfQ.sig" in
  superstruct.validate (claims_object claims) IDTokenSchema = None
  /\ Encode.token (js "eyJhbGciOiJSUzI1NiJ9") claims (js "sig") = token
  /\ Buffer_toString (Encode.utf8_encode (Encode.stringify claims))
     = Encode.stringify claims
  /\ decodeToken token = Throw URIError.
Proof. vm_compute. repeat split; reflexivity. Qed.

(** When the characters above U+007F happen to spell UTF-8 bytes, the
    round trip returns another object: the audience 'Ã©' (U+00C3 U+00A9)
    comes back as 'é' (U+00E9). *)
Example decodeToken_round_trip_decodes_twice :
  let claims aud :=
    {| iss := js "https://logto.dev"; sub := js "user"; aud := aud;
       exp := 1700000000; iat := 1699990000; at_hash := None |} in
  decodeToken (Encode.token (js "eyJhbGciOiJSUzI1NiJ9") (claims [0xC3; 0xA9]) (js "sig"))
  = Ok (claims_object (claims [0xE9])).
Proof. vm_compute. reflexivity. Qed.

(** C6, at two payloads that hold a character above U+007F.  The first
    is the base64url of the UTF-8 JSON text of the object with the one
    member [iss], the string U+00E9: the text is JSON and does not match
    [IDTokenSchema] (there is no [sub]), so the [try] block would throw
    the StructError.  The second is the base64url of the UTF-8 text
    U+00E9, which is not JSON, so the [try] block would throw 'invalid
    token: JSON parse failed'.  Decoding either token throws neither: the
    [decodeURIComponent(escape(...))] of lines 44-46, outside the [try],
    throws a URIError before anything is parsed. *)
Theorem decodeToken_failure_kinds_non_ascii :
  let text :=
    js "{" ++ Encode.quote (js "iss") ++ js ":" ++ Encode.quote [0xE9] ++ js "}" in
  let data := JObject [(js "iss", JString [0xE9])] in
  let failure := {| path := [js "sub"]; expected := "string" |} in
  Encode.base64url (Encode.utf8_encode text) = js "eyJpc3MiOiLDqSJ9"
  /\ Buffer_toString (Buffer_from_base64 (js "eyJpc3MiOiLDqSJ9")) = text
  /\ JSON_parse text = Some data
  /\ superstruct.validate data IDTokenSchema = Some failure
  /\ parse_claims text = Throw (StructError failure)
  /\ decodeToken (js "h.eyJpc3MiOiLDqSJ9.s") = Throw URIError
  /\ Encode.base64url (Encode.utf8_encode [0xE9]) = js "w6k"
  /\ Buffer_toString (Buffer_from_base64 (js "w6k")) = [0xE9]
  /\ JSON_parse [0xE9] = None
  /\ parse_claims [0xE9] = Throw (Error "invalid token: JSON parse failed")
  /\ decodeToken (js "h.w6k.s") = Throw URIError.
Proof. vm_compute. repeat split; reflexivity. Qed.

(** * The round trip

    Decoding needs no padding, and claims of ASCII strings come back from
    the token that carries them. *)

(** ** Decoding without padding *)

Lemma all_below_spec n P x :
  all_below n P = true -> x < N.of_nat n -> P x = true.
Proof.
  unfold all_below. rewrite forallb_forall. intros Hall Hx.
  apply Hall, in_map_iff. exists (N.to_nat x). split; [lia|].
  apply in_seq. lia.
Qed.

Lemma all_below2_spec n m P x y :
  all_below n (fun a => all_below m (P a)) = true ->
  x < N.of_nat n -> y < N.of_nat m -> P x y = true.
Proof.
  intros Hall Hx Hy.
  apply (all_below_spec m (P x) y); [|exact Hy].
  apply (all_below_spec n (fun a => all_below m (P a)) x Hall Hx).
Qed.

Lemma list_ind3 {A} (P : list A -> Prop) :
  P [] -> (forall a, P [a]) -> (forall a b, P [a; b]) ->
  (forall a b c r, P r -> P (a :: b :: c :: r)) ->
  forall l, P l.
Proof.
  intros H0 H1 H2 H3.
  assert (H : forall l, P l /\ (forall a, P (a :: l)) /\ (forall a b, P (a :: b :: l))).
  { induction l as [|x l (IH0 & IH1 & IH2)]; [auto|].
    split; [exact (IH1 x)|]. split; [intros a; exact (IH2 a x)|].
    intros a b. exact (H3 a b x l IH0). }
  intros l. apply H.
Qed.

Lemma base64url_sextets bytes :
  Encode.base64url bytes = map Encode.base64url_char (Encode.sextets bytes).
Proof. reflexivity. Qed.

Lemma sextet_char v rest :
  v < 64 ->
  base64_sextets
    (replace_all (code "_") (code "/")
       (replace_all (code "-") (code "+") (Encode.base64url_char v :: rest)))
  = v :: base64_sextets
           (replace_all (code "_") (code "/") (replace_all (code "-") (code "+") rest)).
Proof.
  intros Hv.
  assert (Hall : all_below 64 sextet_char_ok = true) by (vm_compute; reflexivity).
  pose proof (all_below_spec 64 _ v Hall Hv) as Hok.
  unfold sextet_char_ok in Hok. apply bool_decide_eq_true in Hok. rename Hok into H1.
  unfold replace_all in *. cbn [map base64_sextets] in *.
  destruct (_ =? code "="); [discriminate|].
  destruct (unbase64 _); [|discriminate]. congruence.
Qed.

Lemma sextets_checked : all_below 256 (fun a => all_below 256 (sextets_ok a)) = true.
Proof. vm_compute. reflexivity. Qed.

Lemma sextets_facts a b :
  a < 256 -> b < 256 -> sextets_ok a b = true.
Proof. intros Ha Hb. exact (all_below2_spec 256 256 sextets_ok a b sextets_checked Ha Hb). Qed.

Ltac split_checks :=
  repeat match goal with
    | H : (_ && _) = true |- _ => apply andb_true_iff in H as [? ?]
    | H : (_ <? _) = true |- _ => apply N.ltb_lt in H
    | H : (_ =? _) = true |- _ => apply N.eqb_eq in H
    | H : bool_decide _ = true |- _ => apply bool_decide_eq_true in H
    | H : true = true |- _ => clear H
    end.

Ltac sextets_of a b Ha Hb :=
  let H := fresh in
  pose proof (sextets_facts a b Ha Hb) as H;
  unfold sextets_ok in H; cbn [forallb] in H; split_checks.

Lemma sextets_below bytes :
  Forall (fun b => b < 256) bytes -> Forall (fun v => v < 64) (Encode.sextets bytes).
Proof.
  induction bytes as [|a|a b|a b c r IH] using list_ind3; intros Hall.
  - constructor.
  - inversion_clear Hall as [|? ? Ha _]. sextets_of a a Ha Ha.
    cbn [Encode.sextets]. repeat constructor; assumption.
  - inversion_clear Hall as [|? ? Ha Hall']. inversion_clear Hall' as [|? ? Hb _].
    sextets_of a b Ha Hb. sextets_of b b Hb Hb.
    cbn [Encode.sextets]. repeat constructor; assumption.
  - inversion_clear Hall as [|? ? Ha Hall']. inversion_clear Hall' as [|? ? Hb Hall].
    inversion_clear Hall as [|? ? Hc Hr].
    sextets_of a b Ha Hb. sextets_of b c Hb Hc.
    cbn [Encode.sextets app]. repeat (constructor; [assumption|]). apply IH, Hr.
Qed.

Lemma base64_bytes_sextets bytes :
  Forall (fun b => b < 256) bytes -> base64_bytes (Encode.sextets bytes) = bytes.
Proof.
  induction bytes as [|a|a b|a b c r IH] using list_ind3; intros Hall.
  - reflexivity.
  - inversion_clear Hall as [|? ? Ha _]. sextets_of a a Ha Ha. assumption.
  - inversion_clear Hall as [|? ? Ha Hall']. inversion_clear Hall' as [|? ? Hb _].
    sextets_of a b Ha Hb. assumption.
  - inversion_clear Hall as [|? ? Ha Hall']. inversion_clear Hall' as [|? ? Hb Hall].
    inversion_clear Hall as [|? ? Hc Hr].
    sextets_of a b Ha Hb. sextets_of b c Hb Hc. sextets_of c c Hc Hc.
    cbn [Encode.sextets app base64_bytes]. rewrite (IH Hr).
    repeat f_equal; congruence.
Qed.

(** Decoding stops at the first ['=']: padding adds nothing. *)
Lemma base64_sextets_padding s pad :
  pad = [] \/ (exists pad', pad = code "=" :: pad') ->
  base64_sextets (s ++ pad) = base64_sextets s.
Proof.
  intros Hpad. induction s as [|c s IH].
  - destruct Hpad as [->|[pad' ->]]; reflexivity.
  - cbn [app base64_sextets]. rewrite IH. reflexivity.
Qed.

Lemma base64_sextets_of_chars vs :
  Forall (fun v => v < 64) vs ->
  base64_sextets
    (replace_all (code "_") (code "/")
       (replace_all (code "-") (code "+") (map Encode.base64url_char vs)))
  = vs.
Proof.
  induction 1 as [|v vs Hv _ IH]; [reflexivity|].
  cbn [map]. rewrite (sextet_char v _ Hv), IH. reflexivity.
Qed.

Lemma fullfillBase64_padding input :
  exists pad, fullfillBase64 input = input ++ pad
              /\ (pad = [] \/ exists pad', pad = code "=" :: pad').
Proof.
  unfold fullfillBase64.
  destruct (length input =? 2)%nat; [exists (js "=="); split; eauto|].
  destruct (length input =? 3)%nat; [exists (js "="); split; eauto|].
  exists []. rewrite app_nil_r. auto.
Qed.

(** The bytes come back from their unpadded base64url text, whatever its
    length: padding is added for texts of 2 or 3 characters only, and the
    decoder needs none. *)
Lemma Buffer_from_base64_unpadded bytes :
  Forall (fun b => b < 256) bytes ->
  Buffer_from_base64
    (fullfillBase64
       (replace_all (code "_") (code "/")
          (replace_all (code "-") (code "+") (Encode.base64url bytes))))
  = bytes.
Proof.
  intros Hbytes. unfold Buffer_from_base64.
  destruct (fullfillBase64_padding
              (replace_all (code "_") (code "/")
                 (replace_all (code "-") (code "+") (Encode.base64url bytes))))
    as (pad & -> & Hpad).
  rewrite (base64_sextets_padding _ _ Hpad), base64url_sextets.
  rewrite (base64_sextets_of_chars _ (sextets_below _ Hbytes)).
  apply base64_bytes_sextets, Hbytes.
Qed.

Lemma base64url_length bytes :
  (length (Encode.base64url bytes) mod 4 <> 1)%nat.
Proof.
  unfold Encode.base64url. rewrite length_map.
  induction bytes as [|a|a b|a b c r IH] using list_ind3;
    try (cbn; lia).
  cbn [Encode.sextets app length].
  replace (S (S (S (S (length (Encode.sextets r))))))
    with (length (Encode.sextets r) + 1 * 4)%nat by lia.
  rewrite Nat.Div0.mod_add. exact IH.
Qed.

(** X2: padding restoration is not needed.  The unpadded base64url text of a
    byte sequence has a length that is 0, 2 or 3 modulo 4, and the bytes
    come back from it through the two replacements, [fullfillBase64] and
    [Buffer.from], whatever that length. *)
Theorem payload_decodes_without_padding bytes :
  Forall (fun b => b < 256) bytes ->
  (length (Encode.base64url bytes) mod 4 <> 1)%nat
  /\ Buffer_from_base64
       (fullfillBase64
          (replace_all (code "_") (code "/")
             (replace_all (code "-") (code "+") (Encode.base64url bytes))))
     = bytes.
Proof.
  intros Hbytes. split; [apply base64url_length | apply Buffer_from_base64_unpadded, Hbytes].
Qed.

(** ** ASCII text through the decoding pipeline *)

Lemma below_cases n c :
  c < N.of_nat n -> In c (map N.of_nat (seq 0 n)).
Proof.
  intros Hc. apply in_map_iff. exists (N.to_nat c). split; [lia|].
  apply in_seq. lia.
Qed.

Ltac each_below n c Hc :=
  let H := fresh in
  pose proof (below_cases n c Hc) as H; clear Hc;
  cbv [seq map N.of_nat Pos.of_succ_nat Pos.succ In] in H;
  repeat (destruct H as [<-|H]; [|]); [..|destruct H].

Lemma utf8_encode_ascii s : ascii_only s -> Encode.utf8_encode s = s.
Proof.
  induction 1 as [|c s Hc Hs IH]; [reflexivity|].
  assert (Hh : Encode.is_high_surrogate c = false).
  { unfold Encode.is_high_surrogate. apply andb_false_iff. left. apply N.leb_gt. lia. }
  assert (Hl : Encode.is_low_surrogate c = false).
  { unfold Encode.is_low_surrogate. apply andb_false_iff. left. apply N.leb_gt. lia. }
  assert (Hb : Encode.utf8_bytes c = [c]).
  { unfold Encode.utf8_bytes. destruct (N.ltb_spec c 0x80); [reflexivity|lia]. }
  cbn [Encode.utf8_encode]. rewrite Hh, Hl, Hb. cbn [andb orb].
  destruct s; [reflexivity|]. rewrite IH. reflexivity.
Qed.

Lemma Buffer_toString_ascii s : ascii_only s -> Buffer_toString s = s.
Proof.
  unfold Buffer_toString.
  induction 1 as [|c s Hc Hs IH]; [reflexivity|].
  cbn [utf8_decode]. unfold utf8_lead.
  destruct (N.leb_spec c 0x7F); [|lia].
  cbn [app map concat]. rewrite IH. unfold utf16_encode.
  destruct (N.ltb_spec c 0x10000); [reflexivity|lia].
Qed.

Lemma uri_decode_escape_unit c rest :
  c < 128 ->
  uri_decode (UriState [] 0 Plain) (escape_unit c ++ rest)
  = r ← uri_decode (UriState [] 0 Plain) rest; Some (c :: r).
Proof.
  intros Hc. each_below 128%nat c Hc;
    match goal with
    | |- context [escape_unit ?c] =>
        let e := eval vm_compute in (escape_unit c) in change (escape_unit c) with e
    end;
    simpl; destruct (uri_decode _ rest); reflexivity.
Qed.

Lemma decodeURIComponent_escape s :
  ascii_only s -> decodeURIComponent (escape s) = Some s.
Proof.
  unfold decodeURIComponent, escape.
  induction 1 as [|c s Hc Hs IH]; [reflexivity|].
  cbn [map concat]. rewrite (uri_decode_escape_unit c _ Hc), IH. reflexivity.
Qed.

(** ** The lexer on what [Encode.stringify] writes *)

Lemma quote_units_ascii s :
  ascii_only s -> Encode.quote_units s = concat (map Encode.quote_unit s).
Proof.
  induction 1 as [|c s Hc Hs IH]; [reflexivity|].
  assert (Hh : Encode.is_high_surrogate c = false).
  { unfold Encode.is_high_surrogate. apply andb_false_iff. left. apply N.leb_gt. lia. }
  cbn [Encode.quote_units map concat]. rewrite Hh. cbn [andb].
  destruct s; [rewrite app_nil_r; reflexivity|]. rewrite IH. reflexivity.
Qed.

Lemma lex_quote_unit c acc more :
  c < 128 ->
  lex (LString acc) (Encode.quote_unit c ++ more) = lex (LString (c :: acc)) more.
Proof.
  intros Hc. each_below 128%nat c Hc;
    match goal with
    | |- context [Encode.quote_unit ?c] =>
        let e := eval vm_compute in (Encode.quote_unit c) in
        change (Encode.quote_unit c) with e
    end;
    simpl; destruct (lex _ more); reflexivity.
Qed.

Lemma lex_string_body s acc rest :
  ascii_only s ->
  lex (LString acc) (concat (map Encode.quote_unit s) ++ 0x22 :: rest)
  = r ← lex LIdle rest; Some (TValue (JString (rev acc ++ s)) :: r).
Proof.
  intros Hs. revert acc. induction Hs as [|c s Hc Hs IH]; intros acc.
  - simpl. rewrite app_nil_r. destruct (lex LIdle rest); reflexivity.
  - cbn [map concat]. rewrite <- app_assoc, (lex_quote_unit c _ _ Hc), IH.
    cbn [rev]. rewrite <- app_assoc. reflexivity.
Qed.

Lemma lex_quote s rest :
  ascii_only s ->
  lex LIdle (Encode.quote s ++ rest)
  = r ← lex LIdle rest; Some (TValue (JString s) :: r).
Proof.
  intros Hs. unfold Encode.quote. rewrite (quote_units_ascii s Hs).
  rewrite <- !app_assoc.
  change ([0x22] ++ concat (map Encode.quote_unit s) ++ [0x22] ++ rest)
    with (0x22 :: (concat (map Encode.quote_unit s) ++ 0x22 :: rest)).
  cbn [lex]. change (lex_step LIdle 0x22) with (Some (@nil lexeme, LString [])).
  cbn [mbind option_bind]. rewrite (lex_string_body s [] rest Hs). cbn [rev app].
  destruct (lex LIdle rest); reflexivity.
Qed.

(** A whole multiple of the divisor is its own rounding. *)
Lemma round_half_even_exact q den : 0 < den -> round_half_even (q * den) den = q.
Proof.
  intros Hden. unfold round_half_even.
  rewrite N.Div0.mod_mul, N.div_mul by lia.
  change (2 * 0) with 0. destruct (N.compare_spec 0 den); [lia | reflexivity | lia].
Qed.

(** A safe integer has at most 53 bits: no digit is lost. *)
Lemma round_decimal_integer z :
  safe_integer z -> round_decimal (z <? 0)%Z (Z.abs_N z) 0 = integer_number z.
Proof.
  unfold safe_integer. intros Hz.
  assert (Hn : Z.abs_N z < 2 ^ 53).
  { change (2 ^ 53) with (Z.to_N (2 ^ 53)). lia. }
  unfold round_decimal, integer_number. generalize (z <? 0)%Z as s.
  generalize dependent (Z.abs_N z). clear z Hz. intros n Hn s.
  change (Z.to_N 0) with 0. change (Z.to_N (- 0)) with 0. change (10 ^ 0) with 1.
  rewrite N.mul_1_r, N.div_1_r, N.mul_1_l.
  destruct (N.eq_dec n 0) as [->|Hpos]; [reflexivity|].
  assert (Hlog : N.log2 n < 53) by (apply N.log2_lt_pow2; lia).
  unfold quantum. rewrite N.log2_mul_pow2 by lia.
  set (k := 52 - N.log2 n).
  replace (1074 + N.log2 n + 1 - 53) with (1074 - k) by lia.
  assert (Hsplit : n * 2 ^ 1074 = n * 2 ^ k * 2 ^ (1074 - k)).
  { rewrite <- N.mul_assoc, <- N.pow_add_r. f_equal. f_equal. lia. }
  assert (Hround : round_half_even (n * 2 ^ 1074) (2 ^ (1074 - k)) = n * 2 ^ k).
  { rewrite Hsplit. apply round_half_even_exact.
    apply N.neq_0_lt_0, N.pow_nonzero. discriminate. }
  rewrite Hround, <- Hsplit.
  assert (Hsmall : n * 2 ^ 1074 < 2 ^ 2098).
  { apply N.lt_trans with (2 ^ 53 * 2 ^ 1074).
    - apply N.mul_lt_mono_pos_r; [|exact Hn].
      apply N.neq_0_lt_0, N.pow_nonzero. discriminate.
    - rewrite <- N.pow_add_r. apply N.pow_lt_mono_r; [reflexivity|]. reflexivity. }
  apply N.leb_gt in Hsmall. rewrite Hsmall. reflexivity.
Qed.

(** A literal of 54 bits loses its last bit; [1.5e3] is [1500]; from
    [2 ^ 1024] on the value is an infinity; [-0] keeps its sign. *)
Example round_decimal_rounds :
  round_decimal false 9007199254740993 0 = integer_number 9007199254740992
  /\ JSON_parse (js "1.5e3") = JSON_parse (js "1500")
  /\ JSON_parse (js "1e400") = Some (JNumber (Infinite false))
  /\ JSON_parse (js "-0") = Some (JNumber (Finite true 0)).
Proof. vm_compute. repeat split; reflexivity. Qed.

Lemma code_zero : code "0" = 48.
Proof. reflexivity. Qed.

Lemma decimal_digits_spec fuel n acc :
  0 < n -> n < 2 ^ N.of_nat fuel ->
  exists d ds,
    Encode.decimal_digits fuel n acc = d :: ds ++ acc
    /\ 49 <= d <= 57
    /\ Forall (fun c => 48 <= c <= 57) ds
    /\ digits_value (d :: ds) 0 = n.
Proof.
  revert n acc. induction fuel as [|fuel IH]; intros n acc Hpos Hlt.
  - simpl in Hlt. lia.
  - cbn [Encode.decimal_digits]. rewrite code_zero.
    destruct (N.ltb_spec n 10) as [Hsmall|Hbig].
    + exists (48 + n mod 10), []. rewrite N.mod_small by lia.
      repeat split; try lia; [constructor|].
      unfold digits_value. cbn [fold_left]. unfold digit_value. rewrite ?code_zero. lia.
    + assert (Hdiv : 0 < n / 10) by (apply N.div_str_pos; lia).
      assert (Hlt' : n / 10 < 2 ^ N.of_nat fuel).
      { rewrite Nat2N.inj_succ, N.pow_succ_r' in Hlt.
        apply N.Div0.div_lt_upper_bound. lia. }
      destruct (IH (n / 10) ((48 + n mod 10) :: acc) Hdiv Hlt')
        as (d & ds & Heq & Hd & Hds & Hval).
      exists d, (ds ++ [48 + n mod 10]). rewrite Heq, <- app_assoc.
      repeat split; try lia.
      * apply Forall_app. split; [exact Hds|]. constructor; [|constructor].
        pose proof (N.mod_upper_bound n 10 ltac:(lia)) as Hm. cbv beta.
        generalize dependent (n mod 10). intros; lia.
      * unfold digits_value in *. rewrite app_comm_cons, fold_left_app, Hval.
        cbn [fold_left]. unfold digit_value. rewrite ?code_zero.
        pose proof (N.div_mod n 10 ltac:(lia)) as Hm. clear -Hm.
        generalize dependent (n mod 10). generalize (n / 10). intros; lia.
Qed.

Lemma is_digit_spec c : is_digit c = true <-> 48 <= c <= 57.
Proof.
  unfold is_digit. change (code "0") with 48. change (code "9") with 57.
  rewrite andb_true_iff, !N.leb_le. tauto.
Qed.

Lemma lex_digits ds a more :
  Forall (fun c => 48 <= c <= 57) ds ->
  lex (LNumber NInt a) (ds ++ more)
  = lex (LNumber NInt (fold_left push_digit ds a)) more.
Proof.
  intros Hds. revert a. induction Hds as [|c ds Hc Hds IH]; intros a; [reflexivity|].
  cbn [app lex lex_step lex_number fold_left].
  rewrite (proj2 (is_digit_spec c) Hc). cbn [mbind option_bind].
  rewrite IH. destruct (lex _ more); reflexivity.
Qed.

Lemma push_digits_value ds a :
  fold_left push_digit ds a
  = NumAcc (negative a) (digits_value ds (digits a)) (fraction_length a)
      (exp_negative a) (exp_digits a).
Proof.
  revert a. induction ds as [|c ds IH]; intros a; [destruct a; reflexivity|].
  cbn [fold_left]. rewrite IH. reflexivity.
Qed.

Lemma lex_number_end a d t rest :
  delimits d t ->
  lex (LNumber NInt a) (d :: rest)
  = r ← lex LIdle rest; Some (TValue (JNumber (num_value a)) :: t :: r).
Proof.
  intros [[-> ->]|[-> ->]]; simpl; destruct (lex LIdle rest); reflexivity.
Qed.

Lemma lex_integer z d t rest :
  safe_integer z ->
  delimits d t ->
  lex LIdle (Encode.integer_text z ++ d :: rest)
  = r ← lex LIdle rest; Some (TValue (JNumber (integer_number z)) :: t :: r).
Proof.
  intros Hsafe Hd. rewrite <- (round_decimal_integer z Hsafe).
  unfold Encode.integer_text.
  destruct (Z.eq_dec z 0%Z) as [->|Hz].
  - destruct Hd as [[-> ->]|[-> ->]]; simpl; destruct (lex LIdle rest); reflexivity.
  - assert (Hpos : 0 < Z.abs_N z) by lia.
    assert (Hlt : Z.abs_N z < 2 ^ N.of_nat (S (N.to_nat (N.log2 (Z.abs_N z))))).
    { rewrite Nat2N.inj_succ, N2Nat.id. apply N.log2_spec. exact Hpos. }
    destruct (decimal_digits_spec _ _ [] Hpos Hlt) as (c & ds & -> & Hc & Hds & Hval).
    rewrite app_nil_r.
    assert (Hcases : c = 49 \/ c = 50 \/ c = 51 \/ c = 52 \/ c = 53 \/ c = 54
                     \/ c = 55 \/ c = 56 \/ c = 57) by lia.
    unfold digits_value in Hval. cbn [fold_left] in Hval.
    destruct (Z.ltb_spec z 0%Z) as [Hneg|Hnonneg].
    + assert (Hstart : forall more,
                 lex LIdle (([code "-"] ++ c :: ds) ++ more)
                 = lex (LNumber NInt (NumAcc true (10 * 0 + digit_value c) 0 false 0))
                     (ds ++ more)).
      { intros more.
        destruct Hcases as [->|[->|[->|[->|[->|[->|[->|[->| ->]]]]]]]];
          simpl; destruct (lex _ (ds ++ more)); reflexivity. }
      rewrite Hstart, (lex_digits _ _ _ Hds), push_digits_value.
      rewrite (lex_number_end _ d t rest Hd).
      unfold num_value, digits_value.
      cbn [negative digits fraction_length exp_negative exp_digits].
      rewrite Hval. reflexivity.
    + assert (Hstart : forall more,
                 lex LIdle (([] ++ c :: ds) ++ more)
                 = lex (LNumber NInt (NumAcc false (digit_value c) 0 false 0))
                     (ds ++ more)).
      { intros more.
        destruct Hcases as [->|[->|[->|[->|[->|[->|[->|[->| ->]]]]]]]];
          simpl; destruct (lex _ (ds ++ more)); reflexivity. }
      rewrite Hstart, (lex_digits _ _ _ Hds), push_digits_value.
      rewrite (lex_number_end _ d t rest Hd).
      unfold num_value, digits_value.
      cbn [negative digits fraction_length exp_negative exp_digits].
      replace (digit_value c) with (10 * 0 + digit_value c) by lia.
      rewrite Hval. reflexivity.
Qed.

Lemma lex_punctuation rest :
  lex LIdle (js "{" ++ rest) = (r ← lex LIdle rest; Some (TLBrace :: r))
  /\ lex LIdle (js ":" ++ rest) = (r ← lex LIdle rest; Some (TColon :: r))
  /\ lex LIdle (js "," ++ rest) = (r ← lex LIdle rest; Some (TComma :: r)).
Proof. repeat split; simpl; destruct (lex LIdle rest); reflexivity. Qed.

Lemma lex_integer_comma z rest :
  safe_integer z ->
  lex LIdle (Encode.integer_text z ++ js "," ++ rest)
  = r ← lex LIdle rest; Some (TValue (JNumber (integer_number z)) :: TComma :: r).
Proof. intros Hz. apply (lex_integer z (code ",") TComma rest Hz). left. auto. Qed.

Lemma lex_integer_brace z :
  safe_integer z ->
  lex LIdle (Encode.integer_text z ++ js "}")
  = Some [TValue (JNumber (integer_number z)); TRBrace].
Proof.
  intros Hz. change (js "}") with (code "}" :: []).
  rewrite (lex_integer z (code "}") TRBrace [] Hz); [reflexivity|]. right. auto.
Qed.

Ltac ascii_literal := unfold ascii_only; repeat constructor.

Lemma lex_stringify c :
  plain_claims c ->
  lex LIdle (Encode.stringify c)
  = Some ([ TLBrace;
            TValue (JString (js "iss")); TColon; TValue (JString (iss c)); TComma;
            TValue (JString (js "sub")); TColon; TValue (JString (sub c)); TComma;
            TValue (JString (js "aud")); TColon; TValue (JString (aud c)); TComma;
            TValue (JString (js "exp")); TColon; TValue (JNumber (integer_number (exp c)));
            TComma;
            TValue (JString (js "iat")); TColon; TValue (JNumber (integer_number (iat c))) ]
          ++ match at_hash c with
             | Some h => [TComma; TValue (JString (js "at_hash")); TColon;
                          TValue (JString h)]
             | None => []
             end
          ++ [TRBrace]).
Proof.
  intros ((Hiss & Hsub & Haud & Hhash) & Hexp & Hiat). unfold Encode.stringify.
  assert (Hb : forall rest, lex LIdle (js "{" ++ rest)
                            = (r ← lex LIdle rest; Some (TLBrace :: r)))
    by (intros; apply lex_punctuation).
  assert (Hc : forall rest, lex LIdle (js ":" ++ rest)
                            = (r ← lex LIdle rest; Some (TColon :: r)))
    by (intros; apply lex_punctuation).
  assert (Hm : forall rest, lex LIdle (js "," ++ rest)
                            = (r ← lex LIdle rest; Some (TComma :: r)))
    by (intros; apply lex_punctuation).
  rewrite Hb, (lex_quote (js "iss")), Hc, (lex_quote (iss c)), Hm by (assumption || ascii_literal).
  rewrite (lex_quote (js "sub")), Hc, (lex_quote (sub c)), Hm by (assumption || ascii_literal).
  rewrite (lex_quote (js "aud")), Hc, (lex_quote (aud c)), Hm by (assumption || ascii_literal).
  rewrite (lex_quote (js "exp")), Hc, lex_integer_comma by (assumption || ascii_literal).
  rewrite (lex_quote (js "iat")), Hc by ascii_literal.
  destruct (at_hash c) as [h|].
  - rewrite <- !app_assoc, lex_integer_comma by assumption.
    rewrite (lex_quote (js "at_hash")), Hc, (lex_quote h) by (assumption || ascii_literal).
    reflexivity.
  - cbn [app]. rewrite lex_integer_brace by assumption. reflexivity.
Qed.

Lemma JSON_parse_stringify c :
  plain_claims c -> JSON_parse (Encode.stringify c) = Some (claims_object c).
Proof.
  intros Hc. unfold JSON_parse. rewrite (lex_stringify c Hc).
  unfold claims_object. destruct (at_hash c); reflexivity.
Qed.

Lemma claims_object_valid c :
  superstruct.validate (claims_object c) IDTokenSchema = None.
Proof. unfold claims_object. destruct (at_hash c); reflexivity. Qed.

Lemma quote_unit_ascii c : c < 128 -> ascii_only (Encode.quote_unit c).
Proof.
  intros Hc.
  assert (Hall : all_below 128
                   (fun c => forallb (fun x => x <? 128) (Encode.quote_unit c)) = true)
    by (vm_compute; reflexivity).
  pose proof (all_below_spec 128 _ c Hall Hc) as H.
  rewrite forallb_forall in H. apply List.Forall_forall.
  intros x Hx. apply N.ltb_lt, H, Hx.
Qed.

Lemma quote_ascii s : ascii_only s -> ascii_only (Encode.quote s).
Proof.
  intros Hs. unfold Encode.quote. rewrite (quote_units_ascii s Hs).
  apply Forall_app. split; [ascii_literal|].
  apply Forall_app. split; [|ascii_literal].
  induction Hs as [|c s Hc Hs IH]; [constructor|].
  cbn [map concat]. apply Forall_app. split; [apply quote_unit_ascii, Hc | exact IH].
Qed.

Lemma integer_text_ascii z : ascii_only (Encode.integer_text z).
Proof.
  unfold Encode.integer_text. apply Forall_app. split.
  - destruct (z <? 0)%Z; ascii_literal.
  - destruct (N.eq_dec (Z.abs_N z) 0) as [->|Hz]; [ascii_literal|].
    assert (Hpos : 0 < Z.abs_N z) by lia.
    assert (Hlt : Z.abs_N z < 2 ^ N.of_nat (S (N.to_nat (N.log2 (Z.abs_N z))))).
    { rewrite Nat2N.inj_succ, N2Nat.id. apply N.log2_spec. exact Hpos. }
    destruct (decimal_digits_spec _ _ [] Hpos Hlt) as (c & ds & -> & Hc & Hds & _).
    rewrite app_nil_r. constructor; [lia|].
    eapply Forall_impl; [exact Hds|]. intros x Hx. cbv beta in *. lia.
Qed.

Lemma stringify_ascii c : plain_claims c -> ascii_only (Encode.stringify c).
Proof.
  intros ((Hiss & Hsub & Haud & Hhash) & Hexp & Hiat). unfold Encode.stringify.
  pose proof quote_ascii as Hq. pose proof integer_text_ascii as Hi.
  unfold ascii_only in *. rewrite !Forall_app.
  repeat split; try (apply Hq); try (apply Hi); try assumption;
    try (repeat constructor).
  destruct (at_hash c); [|constructor]. rewrite !Forall_app.
  repeat split; try (apply Hq); try assumption; repeat constructor.
Qed.

Lemma ascii_bytes s : ascii_only s -> Forall (fun b => b < 256) s.
Proof.
  intros Hs. eapply Forall_impl; [exact Hs|]. intros c Hc. cbv beta in *. lia.
Qed.

(** The text handed to [JSON.parse] is the text the producer wrote. *)
Lemma payload_json_ascii text :
  ascii_only text ->
  payload_json (Encode.base64url (Encode.utf8_encode text)) = Some text.
Proof.
  intros Htext. unfold payload_json.
  rewrite (utf8_encode_ascii text Htext).
  rewrite (Buffer_from_base64_unpadded text (ascii_bytes text Htext)).
  rewrite (Buffer_toString_ascii text Htext).
  apply decodeURIComponent_escape, Htext.
Qed.

Lemma base64url_char_not_dot v : Encode.base64url_char v <> code ".".
Proof.
  unfold Encode.base64url_char.
  change (code "A") with 65. change (code "a") with 97. change (code "0") with 48.
  change (code "-") with 45. change (code "_") with 95. change (code ".") with 46.
  destruct (N.ltb_spec v 26); [lia|].
  destruct (N.ltb_spec v 52); [lia|].
  destruct (N.ltb_spec v 62); [lia|].
  destruct (v =? 62); lia.
Qed.

Lemma base64url_no_dot bytes : code "." ∉ Encode.base64url bytes.
Proof.
  rewrite base64url_sextets. intros Hin.
  apply list_elem_of_fmap in Hin as (v & Hv & _).
  symmetry in Hv. exact (base64url_char_not_dot v Hv).
Qed.

Lemma base64url_not_nil bytes : bytes <> [] -> Encode.base64url bytes <> [].
Proof. destruct bytes as [|a [|b [|c r]]]; [congruence|discriminate..]. Qed.

(** X1: the round trip, for claims of ASCII strings and safe integers:
    whatever the header (it holds no dot) and the signature, decoding the
    token that carries the claims returns the claims object. *)
Theorem decodeToken_round_trip header claims signature :
  code "." ∉ header ->
  plain_claims claims ->
  decodeToken (Encode.token header claims signature) = Ok (claims_object claims).
Proof.
  intros Hheader Hclaims.
  pose proof (stringify_ascii claims Hclaims) as Htext.
  set (payload := Encode.base64url (Encode.utf8_encode (Encode.stringify claims))).
  assert (Hne : payload <> []).
  { apply base64url_not_nil. rewrite (utf8_encode_ascii _ Htext).
    unfold Encode.stringify. discriminate. }
  assert (Hseg : split (code ".") (Encode.token header claims signature) !! 1%nat
                 = Some payload).
  { unfold Encode.token. fold payload.
    change (header ++ js "." ++ payload ++ js "." ++ signature)
      with (header ++ code "." :: payload ++ code "." :: signature).
    apply second_segment; [exact Hheader | apply base64url_no_dot | eauto]. }
  rewrite (decodeToken_payload _ _ Hseg Hne). unfold decode_payload, payload.
  rewrite (payload_json_ascii _ Htext). simpl.
  apply parse_claims_ok; [apply JSON_parse_stringify, Hclaims | apply claims_object_valid].
Qed.

(** * Properties of [LogtoClient] *)

Section LogtoClientProperties.

Context {Requester : Type} (env : Collaborators Requester).

(** C8: without an ID token [signOut] returns at once: the client, both
    storages and the record of effects (storage writes, requests, the
    redirect) are what they were. *)
Theorem signOut_without_idToken (postLogoutRedirectUri : option jsstring)
    (w : World Requester) :
  isAuthenticated (this w) = false ->
  signOut env postLogoutRedirectUri w = (Ok tt, w).
Proof.
  intros Hauth. unfold isAuthenticated in Hauth.
  apply negb_false_iff in Hauth.
  unfold signOut, mbind, M_bind, get_this. simpl. rewrite Hauth. reflexivity.
Qed.

(** [getOidcConfig] changes nothing but the cached document and the
    record of effects. *)
Lemma getOidcConfig_frame (w : World Requester) :
  let w1 := (getOidcConfig env w).2 in
  accessTokenMap (this w1) = accessTokenMap (this w)
  /\ refreshToken (this w1) = refreshToken (this w)
  /\ idToken (this w1) = idToken (this w)
  /\ logtoConfig (this w1) = logtoConfig (this w)
  /\ logtoStorageKey (this w1) = logtoStorageKey (this w)
  /\ localStorage w1 = localStorage w
  /\ sessionStorage w1 = sessionStorage w.
Proof.
  unfold getOidcConfig, getOidcConfig_enter, mbind, M_bind, get_this, perform.
  simpl. destruct (oidcConfig (this w)); simpl; [tauto|].
  destruct (fetchOidcConfig env _ _); simpl; tauto.
Qed.

Lemma getOidcConfig_failed (w : World Requester) e :
  oidcConfig (this w) = None ->
  fetchOidcConfig env (getDiscoveryEndpoint env (endpoint (logtoConfig (this w))))
    (requester (logtoConfig (this w))) = Throw e ->
  getOidcConfig env w
  = (Throw e,
     {| this := this w; localStorage := localStorage w;
        sessionStorage := sessionStorage w;
        effects := effects w
          ++ [FetchOidcConfig
                (getDiscoveryEndpoint env (endpoint (logtoConfig (this w))))] |}).
Proof.
  intros Hnone Hfetch.
  unfold getOidcConfig, getOidcConfig_enter, mbind, M_bind, get_this, perform.
  simpl. rewrite Hnone. simpl. rewrite Hfetch. reflexivity.
Qed.

Lemma authenticated_idToken (c : LogtoClient Requester) :
  isAuthenticated c = true -> falsy (idToken c) = false.
Proof. unfold isAuthenticated. intros H. now apply negb_true_iff in H. Qed.

(** [signOut] with an ID token held starts with [getOidcConfig] and stops
    there when it throws. *)
Lemma signOut_stops_when_discovery_throws postLogoutRedirectUri
    (w w1 : World Requester) e :
  isAuthenticated (this w) = true ->
  getOidcConfig env w = (Throw e, w1) ->
  signOut env postLogoutRedirectUri w = (Throw e, w1).
Proof.
  intros Hauth Hcfg. apply authenticated_idToken in Hauth.
  unfold signOut. unfold mbind at 1. unfold M_bind at 1.
  unfold get_this at 1. cbv beta iota. rewrite Hauth.
  unfold mbind at 1. unfold M_bind at 1. rewrite Hcfg. reflexivity.
Qed.

(** C4: with an ID token held and no discovery document cached, a failing
    discovery fetch makes [signOut] throw that error; the client (its
    tokens and access-token map included) and both storages are unchanged,
    only the fetch was made, and the client is still authenticated. *)
Theorem signOut_discovery_failure (postLogoutRedirectUri : option jsstring)
    (w : World Requester) (e : exn) :
  isAuthenticated (this w) = true ->
  oidcConfig (this w) = None ->
  fetchOidcConfig env (getDiscoveryEndpoint env (endpoint (logtoConfig (this w))))
    (requester (logtoConfig (this w))) = Throw e ->
  let w' := (signOut env postLogoutRedirectUri w).2 in
  (signOut env postLogoutRedirectUri w).1 = Throw e
  /\ this w' = this w
  /\ localStorage w' = localStorage w
  /\ sessionStorage w' = sessionStorage w
  /\ effects w'
     = effects w
       ++ [FetchOidcConfig (getDiscoveryEndpoint env (endpoint (logtoConfig (this w))))]
  /\ isAuthenticated (this w') = true.
Proof.
  intros Hauth Hnone Hfetch w'. subst w'.
  rewrite (signOut_stops_when_discovery_throws _ _ _ _ Hauth
             (getOidcConfig_failed w e Hnone Hfetch)).
  simpl. auto 10.
Qed.

(** [signOut] past a successful [getOidcConfig]: whether a refresh token
    is held or not, and whatever the revocation request answers, the
    tokens are cleared and the redirect follows. *)
Lemma signOut_after_discovery postLogoutRedirectUri (w w1 : World Requester)
    config :
  isAuthenticated (this w) = true ->
  getOidcConfig env w = (Ok config, w1) ->
  let key := logtoStorageKey (this w) in
  let url :=
    generateSignOutUri env (endSessionEndpoint config) postLogoutRedirectUri
      (idToken (this w)) in
  signOut env postLogoutRedirectUri w
  = (location_assign env url,
     {| this := clear_tokens (this w1);
        localStorage :=
          delete (key ++ js ":refreshToken")
            (delete (key ++ js ":idToken") (localStorage w));
        sessionStorage := sessionStorage w;
        effects :=
          effects w1
          ++ revocation_effects config (this w)
          ++ [LocalStorageRemoveItem (key ++ js ":idToken");
              LocalStorageRemoveItem (key ++ js ":refreshToken");
              LocationAssign url] |}).
Proof.
  intros Hauth Hcfg key url. subst key url.
  apply authenticated_idToken in Hauth.
  destruct (getOidcConfig_frame w) as (_ & Hr & Hi & Hc & Hk & Hl & Hs).
  rewrite Hcfg in Hr, Hi, Hc, Hk, Hl, Hs. simpl in Hr, Hi, Hc, Hk, Hl, Hs.
  unfold signOut. unfold mbind at 1. unfold M_bind at 1.
  unfold get_this at 1. cbv beta iota. rewrite Hauth.
  unfold mbind at 1. unfold M_bind at 1. rewrite Hcfg.
  unfold mbind, M_bind, get_this, catch, perform, localStorage_removeItem,
    set_this, mret, M_ret, revocation_effects.
  cbv beta iota. rewrite Hr.
  destruct (refreshToken (this w)) as [[|t token]|]; cbn [falsy].
  - cbn -[js]. rewrite ?Hi, ?Hk, ?Hl, ?Hs, <- !app_assoc. reflexivity.
  - destruct (revoke env _ _ _ _); cbn -[js];
      rewrite ?Hi, ?Hk, ?Hl, ?Hs, <- !app_assoc; reflexivity.
  - cbn -[js]. rewrite ?Hi, ?Hk, ?Hl, ?Hs, <- !app_assoc. reflexivity.
Qed.

Lemma getOidcConfig_caches (w w1 : World Requester) config :
  getOidcConfig env w = (Ok config, w1) -> oidcConfig (this w1) = Some config.
Proof.
  unfold getOidcConfig, getOidcConfig_enter, mbind, M_bind, get_this, perform,
    set_this, mret, M_ret.
  destruct (oidcConfig (this w)) as [cached|] eqn:Hcache; cbn.
  - intros [= <- <-]. exact Hcache.
  - destruct (fetchOidcConfig env _ _); cbn; [|discriminate].
    intros [= <- <-]. reflexivity.
Qed.

(** C3: with an ID token and a refresh token held and the discovery
    document at hand, a revocation request that throws does not make
    [signOut] throw: what [signOut] returns is what the redirect returns.
    Afterwards the two durable slots are empty, the access-token map is
    empty and the two token fields are [undefined].  The redirect is the
    last step and is performed on a world in which all of this is already
    so ([before]); hence the state is cleared also when the redirect
    throws. *)
Theorem signOut_revocation_failure (postLogoutRedirectUri : option jsstring)
    (w : World Requester) (config : OidcConfigResponse) (token : jsstring)
    (e : exn) :
  isAuthenticated (this w) = true ->
  refreshToken (this w) = Some token ->
  token <> [] ->
  (getOidcConfig env w).1 = Ok config ->
  revoke env (revocationEndpoint config) (clientId (logtoConfig (this w))) token
    (requester (logtoConfig (this w))) = Throw e ->
  let key := logtoStorageKey (this w) in
  let url :=
    generateSignOutUri env (endSessionEndpoint config) postLogoutRedirectUri
      (idToken (this w)) in
  let w' := (signOut env postLogoutRedirectUri w).2 in
  (signOut env postLogoutRedirectUri w).1 = location_assign env url
  /\ localStorage w' !! (key ++ js ":idToken") = None
  /\ localStorage w' !! (key ++ js ":refreshToken") = None
  /\ accessTokenMap (this w') = ∅
  /\ idToken (this w') = None
  /\ refreshToken (this w') = None
  /\ isAuthenticated (this w') = false
  /\ effects w'
     = effects (getOidcConfig env w).2
       ++ [Revoke (revocationEndpoint config) (clientId (logtoConfig (this w))) token;
           LocalStorageRemoveItem (key ++ js ":idToken");
           LocalStorageRemoveItem (key ++ js ":refreshToken");
           LocationAssign url]
  /\ exists before : World Requester,
       signOut env postLogoutRedirectUri w
       = perform (LocationAssign url) (location_assign env url) before
       /\ this before = this w'
       /\ localStorage before = localStorage w'
       /\ sessionStorage before = sessionStorage w'.
Proof.
  intros Hauth Hrt Hne Hcfg _ key url w'. subst w'.
  destruct (getOidcConfig env w) as [r w1] eqn:Hget. simpl in Hcfg. subst r.
  rewrite (signOut_after_discovery postLogoutRedirectUri w w1 config Hauth Hget).
  unfold revocation_effects. rewrite Hrt.
  destruct token as [|t token']; [congruence|].
  cbn [fst snd this localStorage sessionStorage effects clear_tokens
       accessTokenMap idToken refreshToken isAuthenticated falsy negb app].
  fold key url. rewrite !lookup_delete.
  repeat split; repeat case_decide; try reflexivity; try congruence.
  exists {| this := clear_tokens (this w1);
            localStorage :=
              delete (key ++ js ":refreshToken")
                (delete (key ++ js ":idToken") (localStorage w));
            sessionStorage := sessionStorage w;
            effects :=
              effects w1
              ++ [Revoke (revocationEndpoint config)
                    (clientId (logtoConfig (this w))) (t :: token');
                  LocalStorageRemoveItem (key ++ js ":idToken");
                  LocalStorageRemoveItem (key ++ js ":refreshToken")] |}.
  unfold perform. cbn [this localStorage sessionStorage effects].
  rewrite <- app_assoc. repeat split.
Qed.

(** An item that passes [LogtoSignInSessionItemSchema] has its three
    properties, each a string. *)
Lemma sign_in_session_item_complete item :
  superstruct.validate item LogtoSignInSessionItemSchema = None ->
  exists redirectUri codeVerifier state,
    superstruct.get item (js "redirectUri") = Some (JString redirectUri)
    /\ superstruct.get item (js "codeVerifier") = Some (JString codeVerifier)
    /\ superstruct.get item (js "state") = Some (JString state).
Proof.
  unfold superstruct.validate, LogtoSignInSessionItemSchema, superstruct.type.
  destruct (superstruct.isObject (Some item)); [|discriminate].
  cbn [superstruct.first_failure superstruct.string].
  destruct (superstruct.get item (js "redirectUri")) as [[| | |r| |]|];
    try discriminate.
  destruct (superstruct.get item (js "codeVerifier")) as [[| | |c| |]|];
    try discriminate.
  destruct (superstruct.get item (js "state")) as [[| | |s| |]|];
    try discriminate.
  intros _. eauto 6.
Qed.

(** C9, amended: the getter returns [undefined] when the slot is unset or
    holds the empty string; for any other stored text that is not JSON, or
    is JSON that does not match the schema, it throws the
    'sign_in_session.invalid' error around the cause; and an item it
    returns is the parsed stored text with its three string properties. *)
Theorem signInSession_read (w : World Requester) :
  let stored := sessionStorage w !! logtoStorageKey (this w) in
  (stored = None -> signInSession w = Ok None)
  /\ (stored = Some [] -> signInSession w = Ok None)
  /\ (forall text, stored = Some text -> text <> [] ->
        (JSON_parse text = None ->
         signInSession w
         = Throw (LogtoClientError "sign_in_session.invalid" SyntaxError))
        /\ (forall item f,
              JSON_parse text = Some item ->
              superstruct.validate item LogtoSignInSessionItemSchema = Some f ->
              signInSession w
              = Throw (LogtoClientError "sign_in_session.invalid" (StructError f))))
  /\ (forall item, signInSession w = Ok (Some item) ->
        (exists text, stored = Some text /\ text <> [] /\ JSON_parse text = Some item)
        /\ exists redirectUri codeVerifier state,
             superstruct.get item (js "redirectUri") = Some (JString redirectUri)
             /\ superstruct.get item (js "codeVerifier") = Some (JString codeVerifier)
             /\ superstruct.get item (js "state") = Some (JString state)).
Proof.
  intros stored. unfold signInSession. fold stored.
  destruct stored as [[|c text]|]; cbn [falsy].
  - repeat split; try discriminate; congruence.
  - split; [discriminate|]. split; [discriminate|]. split.
    + intros text' [= <-] _. split.
      * intros Hp. rewrite Hp. reflexivity.
      * intros item f Hp Hv. rewrite Hp. unfold superstruct.assert. simpl.
        rewrite Hv. reflexivity.
    + intros item. unfold superstruct.assert.
      destruct (JSON_parse (c :: text)) as [item'|] eqn:Hp; simpl; [|discriminate].
      destruct (superstruct.validate item' LogtoSignInSessionItemSchema) eqn:Hv;
        simpl; [discriminate|].
      intros [= <-]. split.
      * exists (c :: text). repeat split; [discriminate | exact Hp].
      * apply sign_in_session_item_complete, Hv.
  - repeat split; try discriminate.
Qed.

(** [getOidcConfig] called again and again before any fetch settles: every
    call starts a fetch of its own. *)
Lemma loop_run_calls_without_cache (l : Loop Requester) n :
  oidcConfig (client l) = None ->
  client (loop_run env l (replicate n Call)) = client l
  /\ length (fetches (loop_run env l (replicate n Call)))
     = (length (fetches l) + n)%nat
  /\ callers (loop_run env l (replicate n Call))
     = callers l ++ map Waiting (seq (length (fetches l)) n).
Proof.
  revert l. induction n as [|n IH]; intros l Hnone.
  - simpl. rewrite app_nil_r. auto with lia.
  - change (loop_run env l (replicate (S n) Call))
      with (loop_run env (loop_step env l Call) (replicate n Call)).
    assert (Hstep : loop_step env l Call
                    = {| client := client l;
                         fetches := fetches l
                           ++ [getDiscoveryEndpoint env (endpoint (logtoConfig (client l)))];
                         callers := callers l ++ [Waiting (length (fetches l))] |}).
    { simpl. unfold getOidcConfig_enter. rewrite Hnone. reflexivity. }
    rewrite Hstep.
    match goal with |- context [loop_run env ?l1 _] => destruct (IH l1 Hnone) as (Hc & Hf & Hk) end.
    rewrite Hc, Hf, Hk. simpl. rewrite length_app, <- app_assoc. simpl.
    repeat split; try lia. repeat f_equal. lia.
Qed.

Lemma settle_caller request result (ks : list Caller) i :
  ks !! i = Some (Waiting request) ->
  existsb (is_waiting request) ks = true
  /\ map (fun k => if is_waiting request k then Fulfilled result else k) ks !! i
     = Some (Fulfilled result).
Proof.
  intros Hi. split.
  - apply existsb_exists. exists (Waiting request). split.
    + apply list_elem_of_In, list_elem_of_lookup. eauto.
    + simpl. apply Nat.eqb_refl.
  - rewrite list_lookup_fmap, Hi. simpl. rewrite Nat.eqb_refl. reflexivity.
Qed.

(** C2, amended.  A call made once a discovery document is cached starts
    no fetch and gets the cached document.  [n] calls made on an empty
    cache before any fetch settles start [n] fetches, one each.  When the
    fetch a caller waits for resolves, that caller gets its document,
    which is then the cached one. *)
Theorem getOidcConfig_overlapping_calls :
  (forall (l : Loop Requester) config,
      oidcConfig (client l) = Some config ->
      loop_step env l Call
      = {| client := client l; fetches := fetches l;
           callers := callers l ++ [Fulfilled config] |})
  /\ (forall (c : LogtoClient Requester) n,
        oidcConfig c = None ->
        let l := loop_run env (loop_start c) (replicate n Call) in
        length (fetches l) = n /\ callers l = map Waiting (seq 0 n))
  /\ (forall (l : Loop Requester) i request config,
        callers l !! i = Some (Waiting request) ->
        let l' := loop_step env l (Settle request (Ok config)) in
        callers l' !! i = Some (Fulfilled config)
        /\ oidcConfig (client l') = Some config
        /\ fetches l' = fetches l).
Proof.
  split; [|split].
  - intros l config Hc. simpl. unfold getOidcConfig_enter. rewrite Hc. reflexivity.
  - intros c n Hnone l.
    destruct (loop_run_calls_without_cache (loop_start c) n Hnone) as (_ & Hf & Hk).
    simpl in Hf, Hk. auto.
  - intros l i request config Hi l'. subst l'. simpl.
    destruct (settle_caller request config (callers l) i Hi) as [Hex Hmap].
    rewrite Hex. simpl. auto.
Qed.

(** X4: [signOut] with an ID token held and the discovery document at
    hand always completes locally, with or without a refresh token and
    whatever the revocation request answers: it returns what the redirect
    returns, the client is no longer authenticated, its access-token map
    and refresh token are gone, the two durable slots are removed, the
    session storage is untouched, the discovery document stays cached, and
    the effects are the revocation request (only when a refresh token is
    held), the two removals and, last, the redirect. *)
Theorem signOut_completes (postLogoutRedirectUri : option jsstring)
    (w : World Requester) (config : OidcConfigResponse) :
  isAuthenticated (this w) = true ->
  (getOidcConfig env w).1 = Ok config ->
  let key := logtoStorageKey (this w) in
  let url :=
    generateSignOutUri env (endSessionEndpoint config) postLogoutRedirectUri
      (idToken (this w)) in
  let w' := (signOut env postLogoutRedirectUri w).2 in
  (signOut env postLogoutRedirectUri w).1 = location_assign env url
  /\ isAuthenticated (this w') = false
  /\ accessTokenMap (this w') = ∅
  /\ refreshToken (this w') = None
  /\ oidcConfig (this w') = Some config
  /\ localStorage w'
     = delete (key ++ js ":refreshToken") (delete (key ++ js ":idToken") (localStorage w))
  /\ sessionStorage w' = sessionStorage w
  /\ effects w'
     = effects (getOidcConfig env w).2
       ++ revocation_effects config (this w)
       ++ [LocalStorageRemoveItem (key ++ js ":idToken");
           LocalStorageRemoveItem (key ++ js ":refreshToken");
           LocationAssign url].
Proof.
  intros Hauth Hcfg key url w'. subst w'.
  destruct (getOidcConfig env w) as [r w1] eqn:Hget. simpl in Hcfg. subst r.
  rewrite (signOut_after_discovery postLogoutRedirectUri w w1 config Hauth Hget).
  cbn [fst snd this localStorage sessionStorage effects clear_tokens
       accessTokenMap idToken refreshToken oidcConfig isAuthenticated falsy negb].
  rewrite (getOidcConfig_caches w w1 config Hget). repeat split.
Qed.

(** X3: [getOidcConfig] called in sequence: once it has returned a document,
    the next call returns the same document and does nothing (no fetch);
    when it throws, no document is cached, so the next call fetches
    again. *)
Theorem getOidcConfig_memoizes (w : World Requester) :
  (forall config,
      (getOidcConfig env w).1 = Ok config ->
      getOidcConfig env (getOidcConfig env w).2 = (Ok config, (getOidcConfig env w).2))
  /\ (forall e,
        (getOidcConfig env w).1 = Throw e ->
        oidcConfig (this (getOidcConfig env w).2) = None
        /\ getOidcConfig_enter env (this (getOidcConfig env w).2)
           = Awaits (getDiscoveryEndpoint env (endpoint (logtoConfig (this w))))).
Proof.
  unfold getOidcConfig, getOidcConfig_enter, mbind, M_bind, get_this, perform,
    set_this, mret, M_ret.
  destruct (oidcConfig (this w)) as [cached|] eqn:Hcache; cbn.
  - rewrite Hcache. split; [intros config [= <-]; reflexivity | discriminate].
  - destruct (fetchOidcConfig env _ _) as [config|e]; cbn.
    + split; [intros config' [= <-]; reflexivity | discriminate].
    + rewrite Hcache. split; [discriminate | auto].
Qed.

End LogtoClientProperties.

(** * More on [decodeToken] *)

(** X5: [decodeToken] throws the 'invalid token' error exactly when the
    token has no second segment or an empty one: a token without a dot,
    and a token with nothing between its first dot and the next dot or
    the end.  No other failure (of the decoding, the parsing or the
    validation) is reported with that message. *)
Theorem decodeToken_format_error :
  (forall token,
      decodeToken token = Throw (Error "invalid token")
      <-> (split (code ".") token !! 1%nat = None
           \/ split (code ".") token !! 1%nat = Some []))
  /\ (forall header, code "." ∉ header ->
        decodeToken header = Throw (Error "invalid token")
        /\ decodeToken (header ++ js ".") = Throw (Error "invalid token")
        /\ forall more,
             decodeToken (header ++ js ".." ++ more) = Throw (Error "invalid token")).
Proof.
  assert (Hiff : forall token,
             decodeToken token = Throw (Error "invalid token")
             <-> (split (code ".") token !! 1%nat = None
                  \/ split (code ".") token !! 1%nat = Some [])).
  { intros token. split.
    - intros Herr.
      destruct (split (code ".") token !! 1%nat) as [[|c p]|] eqn:Hseg; auto.
      exfalso. rewrite (decodeToken_payload token (c :: p) Hseg) in Herr by discriminate.
      exact (decode_payload_not_format_error _ Herr).
    - unfold decodeToken. intros [-> | ->]; reflexivity. }
  split; [exact Hiff|]. intros header Hh. repeat split.
  - apply Hiff. left. rewrite (split_without_separator _ _ Hh). reflexivity.
  - apply Hiff. right.
    change (header ++ js ".") with (header ++ code "." :: [] ++ []).
    apply second_segment; [exact Hh | apply not_elem_of_nil | auto].
  - intros more. apply Hiff. right.
    change (header ++ js ".." ++ more) with (header ++ code "." :: [] ++ code "." :: more).
    apply second_segment; [exact Hh | apply not_elem_of_nil | eauto].
Qed.

(** X6: what [decodeToken] returns has passed [IDTokenSchema]: it is an
    object whose [iss], [sub] and [aud] are strings and whose [exp] and
    [iat] are numbers, and whose [at_hash], if there is one, is a
    string. *)
Theorem decodeToken_claims_complete token data :
  decodeToken token = Ok data ->
  exists issuer subject audience expires issued,
    superstruct.get data (js "iss") = Some (JString issuer)
    /\ superstruct.get data (js "sub") = Some (JString subject)
    /\ superstruct.get data (js "aud") = Some (JString audience)
    /\ superstruct.get data (js "exp") = Some (JNumber expires)
    /\ superstruct.get data (js "iat") = Some (JNumber issued)
    /\ (superstruct.get data (js "at_hash") = None
        \/ exists hash, superstruct.get data (js "at_hash") = Some (JString hash)).
Proof.
  intros Hok.
  assert (Hvalid : superstruct.validate data IDTokenSchema = None).
  { unfold decodeToken in Hok.
    destruct (falsy _); [discriminate|].
    destruct (split _ _ !! _) as [p|]; [|discriminate].
    unfold decode_payload in Hok.
    destruct (payload_json p) as [text|]; [|discriminate]. simpl in Hok.
    destruct (parse_claims_cases text)
      as [[_ H]|[(d & f & _ & _ & H)|(d & _ & Hv & H)]]; rewrite H in Hok;
      try discriminate.
    injection Hok as <-. exact Hv. }
  revert Hvalid.
  unfold superstruct.validate, IDTokenSchema, superstruct.type.
  destruct (superstruct.isObject (Some data)); [|discriminate].
  cbn [superstruct.first_failure superstruct.string superstruct.number
       superstruct.optional].
  destruct (superstruct.get data (js "iss")) as [[| | |i| |]|]; try discriminate.
  destruct (superstruct.get data (js "sub")) as [[| | |s| |]|]; try discriminate.
  destruct (superstruct.get data (js "aud")) as [[| | |a| |]|]; try discriminate.
  destruct (superstruct.get data (js "exp")) as [[| |e| | |]|]; try discriminate.
  destruct (superstruct.get data (js "iat")) as [[| |t| | |]|]; try discriminate.
  destruct (superstruct.get data (js "at_hash")) as [[| | |h| |]|]; try discriminate;
    intros _; exists i, s, a, e, t; repeat split; eauto.
Qed.

(** ** The normalisation of the payload before [Buffer.from] *)

Lemma Buffer_from_base64_fullfillBase64 input :
  Buffer_from_base64 (fullfillBase64 input) = Buffer_from_base64 input.
Proof.
  unfold Buffer_from_base64.
  destruct (fullfillBase64_padding input) as (pad & -> & Hpad).
  rewrite (base64_sextets_padding _ _ Hpad). reflexivity.
Qed.


(** The decoder reads ['-'] as ['+'] and ['_'] as ['/']. *)
Lemma base64_sextets_url_safe s :
  base64_sextets (replace_all (code "_") (code "/") (replace_all (code "-") (code "+") s))
  = base64_sextets s.
Proof.
  induction s as [|c s IH]; [reflexivity|].
  unfold replace_all in *. cbn [map base64_sextets]. rewrite IH.
  destruct (N.eqb_spec c (code "-")) as [->|Hdash]; [reflexivity|].
  destruct (N.eqb_spec c (code "_")) as [->|Hunder]; reflexivity.
Qed.

(** X7: on Node the normalisation [decodeToken] applies to the payload
    before decoding it (the two replacements of the URL-safe characters
    and [fullfillBase64]) changes nothing: for every payload, the text
    that reaches [JSON.parse] is the one obtained by handing the payload
    segment to [Buffer.from(..., 'base64')] as it is. *)
Theorem payload_json_without_normalisation payloadPart :
  payload_json payloadPart
  = decodeURIComponent (escape (Buffer_toString (Buffer_from_base64 payloadPart))).
Proof.
  unfold payload_json. cbv zeta. rewrite Buffer_from_base64_fullfillBase64.
  unfold Buffer_from_base64. rewrite base64_sextets_url_safe. reflexivity.
Qed.



(** * The sign-in session through [JSON.stringify] and [JSON.parse] *)

Lemma hex_value_lower_hex_digit v :
  v < 16 -> hex_value (Encode.lower_hex_digit v) = Some v.
Proof. intros Hv. each_below 16%nat v Hv; reflexivity. Qed.

Lemma nibbles c :
  c < 0x10000 ->
  c / 4096 < 16 /\ c / 256 mod 16 < 16 /\ c / 16 mod 16 < 16 /\ c mod 16 < 16
  /\ 16 * (16 * (16 * (16 * 0 + c / 4096) + c / 256 mod 16) + c / 16 mod 16) + c mod 16
     = c.
Proof.
  intros Hc.
  pose proof (N.div_mod c 16 ltac:(lia)) as H0.
  pose proof (N.mod_upper_bound c 16 ltac:(lia)) as B0.
  pose proof (N.div_mod (c / 16) 16 ltac:(lia)) as H1.
  pose proof (N.mod_upper_bound (c / 16) 16 ltac:(lia)) as B1.
  pose proof (N.div_mod (c / 256) 16 ltac:(lia)) as H2.
  pose proof (N.mod_upper_bound (c / 256) 16 ltac:(lia)) as B2.
  assert (E1 : c / 16 / 16 = c / 256) by (rewrite N.Div0.div_div; reflexivity).
  assert (E2 : c / 256 / 16 = c / 4096) by (rewrite N.Div0.div_div; reflexivity).
  rewrite E1 in H1. rewrite E2 in H2.
  generalize dependent (c mod 16). generalize dependent (c / 16 mod 16).
  generalize dependent (c / 256 mod 16). generalize dependent (c / 4096).
  generalize dependent (c / 256). generalize dependent (c / 16).
  intros. lia.
Qed.

Lemma lex_unicode_digit acc k v d h more :
  hex_value d = Some h ->
  lex (LUnicode acc k v) (d :: more)
  = match k with
    | 3%nat => lex (LString (16 * v + h :: acc)) more
    | _ => lex (LUnicode acc (S k) (16 * v + h)) more
    end.
Proof.
  intros Hd. cbn [lex lex_step]. rewrite Hd. cbn [mbind option_bind].
  destruct k as [|[|[|[|k]]]]; cbn [mbind option_bind];
    match goal with |- context [lex ?st more] => destruct (lex st more) end;
    reflexivity.
Qed.

Lemma lex_unicode_mark acc more :
  lex (LString acc) (0x5C :: code "u" :: more) = lex (LUnicode acc 0 0) more.
Proof.
  cbn [lex]. change (lex_step (LString acc) 0x5C) with (Some (@nil lexeme, LEscape acc)).
  cbn [mbind option_bind].
  change (lex_step (LEscape acc) (code "u")) with (Some (@nil lexeme, LUnicode acc 0 0)).
  cbn [mbind option_bind]. destruct (lex _ more); reflexivity.
Qed.

Lemma lex_unicode_escape c acc more :
  c < 0x10000 ->
  lex (LString acc) (Encode.unicode_escape c ++ more) = lex (LString (c :: acc)) more.
Proof.
  intros Hc. destruct (nibbles c Hc) as (H3 & H2 & H1 & H0 & Hsum).
  unfold Encode.unicode_escape. cbn [app]. rewrite lex_unicode_mark.
  rewrite (lex_unicode_digit _ _ _ _ _ _ (hex_value_lower_hex_digit _ H3)).
  rewrite (lex_unicode_digit _ _ _ _ _ _ (hex_value_lower_hex_digit _ H2)).
  rewrite (lex_unicode_digit _ _ _ _ _ _ (hex_value_lower_hex_digit _ H1)).
  rewrite (lex_unicode_digit _ _ _ _ _ _ (hex_value_lower_hex_digit _ H0)).
  rewrite Hsum. reflexivity.
Qed.

Lemma lex_literal c acc more :
  0x20 <= c -> c <> 0x22 -> c <> 0x5C ->
  lex (LString acc) (c :: more) = lex (LString (c :: acc)) more.
Proof.
  intros Hlow Hq Hb. cbn [lex lex_step].
  rewrite (proj2 (N.eqb_neq c 0x22) Hq), (proj2 (N.eqb_neq c 0x5C) Hb).
  rewrite (proj2 (N.ltb_ge c 0x20) Hlow). cbn [mbind option_bind].
  destruct (lex _ more); reflexivity.
Qed.

Lemma lex_quote_unit_well_formed c acc more :
  c < 0x10000 ->
  lex (LString acc) (Encode.quote_unit c ++ more) = lex (LString (c :: acc)) more.
Proof.
  intros Hc. destruct (N.lt_ge_cases c 128) as [Hsmall|Hbig].
  { apply lex_quote_unit, Hsmall. }
  unfold Encode.quote_unit.
  rewrite !(proj2 (N.eqb_neq c _)) by lia.
  rewrite (proj2 (N.ltb_ge c 0x20)) by lia. cbn [orb].
  destruct (Encode.is_high_surrogate c || Encode.is_low_surrogate c).
  - apply lex_unicode_escape, Hc.
  - apply lex_literal; lia.
Qed.

Lemma quote_units_pair c d s :
  Encode.quote_units (c :: d :: s)
  = if Encode.is_high_surrogate c && Encode.is_low_surrogate d
    then c :: d :: Encode.quote_units s
    else Encode.quote_unit c ++ Encode.quote_units (d :: s).
Proof. reflexivity. Qed.

Lemma lex_string_body_well_formed n rest :
  forall s acc,
    (length s <= n)%nat -> well_formed s ->
    lex (LString acc) (Encode.quote_units s ++ 0x22 :: rest)
    = r ← lex LIdle rest; Some (TValue (JString (rev acc ++ s)) :: r).
Proof.
  induction n as [|n IH]; intros s acc Hlen Hs.
  - destruct s; [|simpl in Hlen; lia].
    simpl. rewrite app_nil_r. destruct (lex LIdle rest); reflexivity.
  - destruct s as [|c [|d s]].
    + simpl. rewrite app_nil_r. destruct (lex LIdle rest); reflexivity.
    + apply Forall_cons in Hs as [Hc _].
      change (Encode.quote_units [c]) with (Encode.quote_unit c).
      rewrite (lex_quote_unit_well_formed c _ _ Hc).
      simpl. rewrite <- ?app_assoc. destruct (lex LIdle rest); reflexivity.
    + pose proof Hs as Hs'.
      apply Forall_cons in Hs' as [Hc Hds]. pose proof Hds as Hds'.
      apply Forall_cons in Hds' as [Hd Htail].
      rewrite quote_units_pair.
      destruct (Encode.is_high_surrogate c && Encode.is_low_surrogate d) eqn:Hpair.
      * apply andb_true_iff in Hpair as [Hh Hl].
        unfold Encode.is_high_surrogate in Hh. unfold Encode.is_low_surrogate in Hl.
        apply andb_true_iff in Hh as [Hh1 Hh2]. apply andb_true_iff in Hl as [Hl1 Hl2].
        apply N.leb_le in Hh1, Hh2, Hl1, Hl2.
        cbn [app]. rewrite (lex_literal c), (lex_literal d) by lia.
        rewrite (IH s) by (simpl in Hlen; try lia; assumption).
        cbn [rev]. rewrite <- !app_assoc. reflexivity.
      * rewrite <- app_assoc, (lex_quote_unit_well_formed c _ _ Hc).
        rewrite (IH (d :: s)) by (simpl in Hlen |- *; try lia; assumption).
        cbn [rev]. rewrite <- app_assoc. reflexivity.
Qed.

Lemma lex_quote_well_formed s rest :
  well_formed s ->
  lex LIdle (Encode.quote s ++ rest)
  = r ← lex LIdle rest; Some (TValue (JString s) :: r).
Proof.
  intros Hs. unfold Encode.quote. rewrite <- !app_assoc.
  change ([0x22] ++ Encode.quote_units s ++ [0x22] ++ rest)
    with (0x22 :: (Encode.quote_units s ++ 0x22 :: rest)).
  cbn [lex]. change (lex_step LIdle 0x22) with (Some (@nil lexeme, LString [])).
  cbn [mbind option_bind].
  rewrite (lex_string_body_well_formed (length s) rest s [] (le_n _) Hs). cbn [rev app].
  destruct (lex LIdle rest); reflexivity.
Qed.

Lemma lex_stringify_item item :
  well_formed_item item ->
  lex LIdle (stringify_item item)
  = Some [ TLBrace;
           TValue (JString (js "redirectUri")); TColon;
           TValue (JString (redirectUri item)); TComma;
           TValue (JString (js "codeVerifier")); TColon;
           TValue (JString (codeVerifier item)); TComma;
           TValue (JString (js "state")); TColon;
           TValue (JString (state item)); TRBrace ].
Proof.
  intros (Hr & Hv & Hs). unfold stringify_item.
  assert (Hb : forall rest, lex LIdle (js "{" ++ rest)
                            = (r ← lex LIdle rest; Some (TLBrace :: r)))
    by (intros; apply lex_punctuation).
  assert (Hc : forall rest, lex LIdle (js ":" ++ rest)
                            = (r ← lex LIdle rest; Some (TColon :: r)))
    by (intros; apply lex_punctuation).
  assert (Hm : forall rest, lex LIdle (js "," ++ rest)
                            = (r ← lex LIdle rest; Some (TComma :: r)))
    by (intros; apply lex_punctuation).
  rewrite Hb, (lex_quote (js "redirectUri")), Hc, (lex_quote_well_formed (redirectUri item)), Hm
    by (assumption || ascii_literal).
  rewrite (lex_quote (js "codeVerifier")), Hc, (lex_quote_well_formed (codeVerifier item)), Hm
    by (assumption || ascii_literal).
  rewrite (lex_quote (js "state")), Hc, (lex_quote_well_formed (state item))
    by (assumption || ascii_literal).
  reflexivity.
Qed.

Lemma JSON_parse_stringify_item item :
  well_formed_item item -> JSON_parse (stringify_item item) = Some (item_object item).
Proof.
  intros Hi. unfold JSON_parse. rewrite (lex_stringify_item item Hi). reflexivity.
Qed.

Lemma stringify_item_not_empty item : falsy (Some (stringify_item item)) = false.
Proof. reflexivity. Qed.

(** * Properties of the sign-in session setter, [signIn] and the constructor *)

Section SignInProperties.

Context {Requester : Type} (env : Collaborators Requester).
Context (gen : SignInCollaborators) (getLogtoKey : jsstring -> jsstring).

Lemma signInSession_stored (w : World Requester) item :
  well_formed_item item ->
  sessionStorage w !! logtoStorageKey (this w) = Some (stringify_item item) ->
  signInSession w = Ok (Some (item_object item)).
Proof.
  intros Hitem Hstored. unfold signInSession. cbv zeta. rewrite Hstored.
  rewrite stringify_item_not_empty, (JSON_parse_stringify_item item Hitem).
  reflexivity.
Qed.

(** X9: an item assigned to the sign-in session is the item read back:
    the setter completes and changes nothing but the client's slot of the
    session storage, and the getter then returns the object with the same
    three strings, whatever characters they hold (quotes, backslashes,
    control characters, lone surrogates). *)
Theorem signInSession_set_then_get (item : LogtoSignInSessionItem)
    (w : World Requester) :
  well_formed_item item ->
  let w' := (set_signInSession (Some item) w).2 in
  (set_signInSession (Some item) w).1 = Ok tt
  /\ signInSession w' = Ok (Some (item_object item))
  /\ (forall key, key <> logtoStorageKey (this w) ->
        sessionStorage w' !! key = sessionStorage w !! key)
  /\ this w' = this w
  /\ localStorage w' = localStorage w
  /\ effects w' = effects w.
Proof.
  intros Hitem. cbv zeta. repeat split.
  - apply signInSession_stored; [exact Hitem|]. cbn. apply lookup_insert_eq.
  - intros key Hkey. cbn. apply lookup_insert_ne. congruence.
Qed.

(** X10: assigning [undefined] to the sign-in session empties the client's
    slot, whatever it held (a malformed text included): the getter then
    returns [undefined] and does not throw; the other slots of the session
    storage, the client and the local storage are unchanged. *)
Theorem signInSession_set_undefined (w : World Requester) :
  let w' := (set_signInSession None w).2 in
  (set_signInSession None w).1 = Ok tt
  /\ signInSession w' = Ok None
  /\ (forall key, key <> logtoStorageKey (this w) ->
        sessionStorage w' !! key = sessionStorage w !! key)
  /\ this w' = this w
  /\ localStorage w' = localStorage w
  /\ effects w' = effects w.
Proof.
  cbv zeta. repeat split.
  - unfold signInSession, set_signInSession, mbind, M_bind, get_this,
      sessionStorage_removeItem.
    cbn [snd this sessionStorage]. rewrite lookup_delete_eq. reflexivity.
  - intros key Hkey. cbn. apply lookup_delete_ne. congruence.
Qed.

Lemma signOut_returns_at_once postLogoutRedirectUri (w : World Requester) :
  isAuthenticated (this w) = false ->
  signOut env postLogoutRedirectUri w = (Ok tt, w).
Proof.
  unfold isAuthenticated. intros Hauth. apply negb_false_iff in Hauth.
  unfold signOut, mbind, M_bind, get_this. rewrite Hauth. reflexivity.
Qed.

(** [signIn] past a successful [getOidcConfig] and a computed code
    challenge. *)
Lemma signIn_after_discovery redirectUri (w w1 : World Requester) config codeChallenge :
  getOidcConfig env w = (Ok config, w1) ->
  generateCodeChallenge gen (generateCodeVerifier gen) = Ok codeChallenge ->
  let item :=
    {| redirectUri := redirectUri; codeVerifier := generateCodeVerifier gen;
       state := generateState gen |} in
  let signInUri :=
    generateSignInUri gen (authorizationEndpoint config)
      (clientId (logtoConfig (this w))) redirectUri codeChallenge (generateState gen)
      (split (code " ") (withReservedScopes gen (scopes Requester (logtoConfig (this w)))))
      (resources Requester (logtoConfig (this w))) in
  signIn env gen redirectUri w
  = (location_assign env signInUri,
     {| this := this w1; localStorage := localStorage w1;
        sessionStorage :=
          <[logtoStorageKey (this w1) := stringify_item item]> (sessionStorage w1);
        effects := effects w1 ++ [LocationAssign signInUri] |}).
Proof.
  intros Hconfig Hchallenge. cbv zeta.
  unfold signIn, mbind, M_bind, get_this. rewrite Hconfig.
  unfold answer. rewrite Hchallenge. reflexivity.
Qed.

(** X11: [signIn] with the discovery document obtained and the code
    challenge computed: it returns what the navigation returns; the
    navigation goes to the URI built from the authorization endpoint, the
    client id, the redirect URI, the challenge of the generated verifier,
    the generated state, the words of [withReservedScopes(scopes)] and the
    resources, and it is the last effect; before it, the session slot of
    the client received the redirect URI, that verifier and that state,
    which the getter reads back; the tokens, the authentication status and
    the local storage are as before. *)
Theorem signIn_completes (redirectUri : jsstring) (w : World Requester)
    (config : OidcConfigResponse) (codeChallenge : jsstring) :
  (getOidcConfig env w).1 = Ok config ->
  generateCodeChallenge gen (generateCodeVerifier gen) = Ok codeChallenge ->
  let item :=
    {| redirectUri := redirectUri; codeVerifier := generateCodeVerifier gen;
       state := generateState gen |} in
  let signInUri :=
    generateSignInUri gen (authorizationEndpoint config)
      (clientId (logtoConfig (this w))) redirectUri codeChallenge (generateState gen)
      (split (code " ") (withReservedScopes gen (scopes Requester (logtoConfig (this w)))))
      (resources Requester (logtoConfig (this w))) in
  let w' := (signIn env gen redirectUri w).2 in
  (signIn env gen redirectUri w).1 = location_assign env signInUri
  /\ sessionStorage w' !! logtoStorageKey (this w) = Some (stringify_item item)
  /\ (well_formed_item item -> signInSession w' = Ok (Some (item_object item)))
  /\ (forall key, key <> logtoStorageKey (this w) ->
        sessionStorage w' !! key = sessionStorage w !! key)
  /\ effects w' = effects (getOidcConfig env w).2 ++ [LocationAssign signInUri]
  /\ idToken (this w') = idToken (this w)
  /\ refreshToken (this w') = refreshToken (this w)
  /\ accessTokenMap (this w') = accessTokenMap (this w)
  /\ isAuthenticated (this w') = isAuthenticated (this w)
  /\ oidcConfig (this w') = Some config
  /\ localStorage w' = localStorage w.
Proof.
  intros Hconfig Hchallenge. cbv zeta.
  destruct (getOidcConfig env w) as [r w1] eqn:Hget. simpl in Hconfig. subst r.
  rewrite (signIn_after_discovery redirectUri w w1 config codeChallenge Hget Hchallenge).
  pose proof (getOidcConfig_frame env w) as Hframe. cbv zeta in Hframe.
  rewrite Hget in Hframe. cbn [snd] in Hframe.
  destruct Hframe as (Hmap & Hrefresh & Hid & _ & Hkey & Hlocal & Hsession).
  cbn [fst snd this localStorage sessionStorage effects].
  assert (Hstored :
            <[logtoStorageKey (this w1) :=
                stringify_item
                  {| redirectUri := redirectUri; codeVerifier := generateCodeVerifier gen;
                     state := generateState gen |}]> (sessionStorage w1)
            !! logtoStorageKey (this w) = Some
                (stringify_item
                  {| redirectUri := redirectUri; codeVerifier := generateCodeVerifier gen;
                     state := generateState gen |})).
  { rewrite Hkey. apply lookup_insert_eq. }
  split; [reflexivity|]. split; [exact Hstored|].
  split.
  { intros Hitem. apply signInSession_stored; [exact Hitem|]. cbn. rewrite Hkey.
    apply lookup_insert_eq. }
  split.
  { intros key Hne. rewrite Hkey, Hsession. apply lookup_insert_ne. congruence. }
  split; [reflexivity|].
  split; [exact Hid|]. split; [exact Hrefresh|]. split; [exact Hmap|].
  split; [unfold isAuthenticated; rewrite Hid; reflexivity|].
  split; [exact (getOidcConfig_caches env w w1 config Hget)|exact Hlocal].
Qed.

(** X12: when the discovery document cannot be obtained, or when the code
    challenge cannot be computed, [signIn] throws that error and stops
    there: nothing is written to the session storage and there is no
    navigation (the world is the one [getOidcConfig] left). *)
Theorem signIn_failure (redirectUri : jsstring) (w : World Requester) (e : exn) :
  ((getOidcConfig env w).1 = Throw e
   \/ ((exists config, (getOidcConfig env w).1 = Ok config)
       /\ generateCodeChallenge gen (generateCodeVerifier gen) = Throw e)) ->
  let w' := (signIn env gen redirectUri w).2 in
  signIn env gen redirectUri w = (Throw e, (getOidcConfig env w).2)
  /\ sessionStorage w' = sessionStorage w
  /\ localStorage w' = localStorage w
  /\ Forall (fun effect => forall uri, effect <> LocationAssign uri)
       (drop (length (effects w)) (effects w')).
Proof.
  intros Hfail. cbv zeta.
  assert (Hrun : signIn env gen redirectUri w = (Throw e, (getOidcConfig env w).2)).
  { unfold signIn, mbind, M_bind, get_this.
    destruct (getOidcConfig env w) as [r w1] eqn:Hget. cbn [fst snd] in *.
    destruct Hfail as [->|[[config ->] Hchallenge]]; [reflexivity|].
    unfold answer. rewrite Hchallenge. reflexivity. }
  rewrite Hrun. cbn [snd].
  pose proof (getOidcConfig_frame env w) as Hframe. cbv zeta in Hframe.
  destruct Hframe as (_ & _ & _ & _ & _ & Hlocal & Hsession).
  split; [reflexivity|]. split; [exact Hsession|]. split; [exact Hlocal|].
  unfold getOidcConfig, mbind, M_bind, get_this, getOidcConfig_enter.
  destruct (oidcConfig (this w)).
  - cbn. rewrite drop_all. constructor.
  - unfold perform.
    destruct (fetchOidcConfig env _ _); cbn; rewrite drop_app_length;
      repeat constructor; discriminate.
Qed.

(** X13: a client is built from the two durable slots under its storage
    key: each token field holds exactly the non-empty text of its slot
    (an absent slot and an empty text both give no token), so the client
    is authenticated exactly when the ID-token slot holds a non-empty
    text; it keeps the configuration it was given and starts with no
    access token and no discovery document. *)
Theorem new_LogtoClient_tokens (config : LogtoConfig Requester)
    (storage : gmap (list N) (list N)) :
  let c := new_LogtoClient getLogtoKey config storage in
  let key := getLogtoKey (clientId config) in
  logtoStorageKey c = key
  /\ logtoConfig c = config
  /\ (forall token,
        idToken c = Some token
        <-> storage !! (key ++ js ":idToken") = Some token /\ token <> [])
  /\ (forall token,
        refreshToken c = Some token
        <-> storage !! (key ++ js ":refreshToken") = Some token /\ token <> [])
  /\ (isAuthenticated c = true
      <-> exists token, storage !! (key ++ js ":idToken") = Some token /\ token <> [])
  /\ accessTokenMap c = ∅
  /\ oidcConfig c = None.
Proof.
  cbv zeta. unfold new_LogtoClient, isAuthenticated, conditional.
  cbn [logtoStorageKey logtoConfig idToken refreshToken accessTokenMap oidcConfig].
  split; [reflexivity|]. split; [reflexivity|].
  split.
  { intros token. destruct (storage !! _) as [[|x t]|]; cbn [falsy].
    - split; [discriminate | intros [[= <-] Hne]; congruence].
    - split; [intros [= <-]; split; [reflexivity | discriminate]
             | intros [Heq _]; exact Heq].
    - split; [discriminate | intros [Hnone _]; discriminate]. }
  split.
  { intros token. destruct (storage !! _) as [[|x t]|]; cbn [falsy].
    - split; [discriminate | intros [[= <-] Hne]; congruence].
    - split; [intros [= <-]; split; [reflexivity | discriminate]
             | intros [Heq _]; exact Heq].
    - split; [discriminate | intros [Hnone _]; discriminate]. }
  split.
  { destruct (storage !! _) as [[|x t]|]; cbn [falsy negb].
    - split; [discriminate | intros (token & [= <-] & Hne); congruence].
    - split; [intros _; exists (x :: t); split; [reflexivity | discriminate]
             | reflexivity].
    - split; [discriminate | intros (token & Hnone & _); discriminate]. }
  split; reflexivity.
Qed.

Lemma new_LogtoClient_signed_out (config : LogtoConfig Requester)
    (storage : gmap (list N) (list N)) :
  storage !! (getLogtoKey (clientId config) ++ js ":idToken") = None ->
  isAuthenticated (new_LogtoClient getLogtoKey config storage) = false.
Proof.
  intros Hnone. unfold new_LogtoClient, isAuthenticated, conditional. cbn [idToken].
  rewrite Hnone. reflexivity.
Qed.

(** X14: sign-out survives a reload.  For a client built from the local
    storage, when the discovery document can be fetched, a client built
    anew from the storage that [signOut] leaves is not authenticated; and
    if the first client was authenticated, the new one holds no refresh
    token either. *)
Theorem signOut_then_reload (config : LogtoConfig Requester)
    (storage session : gmap (list N) (list N)) (done : list Effect)
    (postLogoutRedirectUri : option jsstring) (document : OidcConfigResponse) :
  fetchOidcConfig env (getDiscoveryEndpoint env (endpoint config)) (requester config)
  = Ok document ->
  let c := new_LogtoClient getLogtoKey config storage in
  let w := {| this := c; localStorage := storage; sessionStorage := session;
              effects := done |} in
  let w' := (signOut env postLogoutRedirectUri w).2 in
  let c' := new_LogtoClient getLogtoKey config (localStorage w') in
  isAuthenticated (this w') = false
  /\ isAuthenticated c' = false
  /\ (isAuthenticated c = true -> refreshToken c' = None).
Proof.
  intros Hfetch. cbv zeta.
  set (c := new_LogtoClient getLogtoKey config storage).
  set (w := {| this := c; localStorage := storage; sessionStorage := session;
               effects := done |}).
  destruct (isAuthenticated c) eqn:Hauth.
  - assert (Hget : exists w1, getOidcConfig env w = (Ok document, w1)).
    { unfold getOidcConfig, mbind, M_bind, get_this, getOidcConfig_enter, perform.
      cbn. rewrite Hfetch. cbn. eauto. }
    destruct Hget as [w1 Hget].
    rewrite (signOut_after_discovery env postLogoutRedirectUri w w1 document Hauth Hget).
    cbn [snd this localStorage]. split; [reflexivity|].
    split.
    + apply new_LogtoClient_signed_out.
      change (logtoStorageKey (this w)) with (getLogtoKey (clientId config)).
      change (localStorage w) with storage.
      rewrite lookup_delete_ne by (intros Heq; apply app_inv_head in Heq; discriminate).
      apply lookup_delete_eq.
    + intros _. unfold new_LogtoClient, conditional. cbn [refreshToken].
      change (logtoStorageKey (this w)) with (getLogtoKey (clientId config)).
      rewrite lookup_delete_eq. reflexivity.
  - rewrite (signOut_returns_at_once postLogoutRedirectUri w Hauth).
    cbn [snd]. change (this w) with c. change (localStorage w) with storage.
    fold c. split; [exact Hauth|]. split; [exact Hauth|discriminate].
Qed.

(** X15: signing out twice is signing out once: after a [signOut] that got
    the discovery document, a second [signOut] returns at once and changes
    nothing; in particular there is no second revocation request and no
    second redirect. *)
Theorem signOut_twice (postLogoutRedirectUri again : option jsstring)
    (w : World Requester) (config : OidcConfigResponse) :
  isAuthenticated (this w) = true ->
  (getOidcConfig env w).1 = Ok config ->
  let w' := (signOut env postLogoutRedirectUri w).2 in
  signOut env again w' = (Ok tt, w').
Proof.
  intros Hauth Hconfig. cbv zeta.
  destruct (getOidcConfig env w) as [r w1] eqn:Hget. simpl in Hconfig. subst r.
  rewrite (signOut_after_discovery env postLogoutRedirectUri w w1 config Hauth Hget).
  cbn [snd]. apply signOut_returns_at_once. reflexivity.
Qed.

End SignInProperties.

Lemma signOut_without_idToken_witness :
  signOut (Sample.env (Ok Sample.config) (Ok tt)) None
    (Sample.world Sample.signed_out ∅)
  = (Ok tt, Sample.world Sample.signed_out ∅).
Proof. apply signOut_without_idToken. reflexivity. Defined.

Lemma signOut_discovery_failure_witness :
  let env := Sample.env (Throw (Error "discovery failed")) (Ok tt) in
  let w := Sample.world Sample.signed_in ∅ in
  let w' := (signOut env None w).2 in
  (signOut env None w).1 = Throw (Error "discovery failed")
  /\ this w' = this w
  /\ localStorage w' = localStorage w
  /\ sessionStorage w' = sessionStorage w
  /\ effects w'
     = effects w
       ++ [FetchOidcConfig (getDiscoveryEndpoint env (endpoint (logtoConfig (this w))))]
  /\ isAuthenticated (this w') = true.
Proof.
  apply (signOut_discovery_failure
           (Sample.env (Throw (Error "discovery failed")) (Ok tt)) None
           (Sample.world Sample.signed_in ∅) (Error "discovery failed"));
    reflexivity.
Defined.

Lemma signOut_revocation_failure_witness :
  let env := Sample.env (Ok Sample.config) (Throw (Error "revocation failed")) in
  let w := Sample.world Sample.signed_in ∅ in
  let url := js "https://logto.dev/oidc/session/end?id_token_hint=h.e30.s" in
  let w' := (signOut env None w).2 in
  (signOut env None w).1 = Ok tt
  /\ localStorage w' !! js "logto:app:idToken" = None
  /\ localStorage w' !! js "logto:app:refreshToken" = None
  /\ accessTokenMap (this w') = ∅
  /\ idToken (this w') = None
  /\ refreshToken (this w') = None
  /\ isAuthenticated (this w') = false
  /\ effects w'
     = [FetchOidcConfig (js "https://logto.dev/oidc/.well-known/openid-configuration");
        Revoke (js "https://logto.dev/oidc/token/revocation") (js "app") (js "rt");
        LocalStorageRemoveItem (js "logto:app:idToken");
        LocalStorageRemoveItem (js "logto:app:refreshToken");
        LocationAssign url]
  /\ exists before : World unit,
       signOut env None w = perform (LocationAssign url) (Ok tt) before
       /\ this before = this w'
       /\ localStorage before = localStorage w'
       /\ sessionStorage before = sessionStorage w'.
Proof.
  apply (signOut_revocation_failure
           (Sample.env (Ok Sample.config) (Throw (Error "revocation failed"))) None
           (Sample.world Sample.signed_in ∅) Sample.config (js "rt")
           (Error "revocation failed"));
    [reflexivity | reflexivity | discriminate | reflexivity | reflexivity].
Defined.

(** C9 as stated fails on the empty string: it is a stored value, it is
    not JSON, and the getter returns [undefined] for it. *)
Lemma signInSession_empty_string_reads_absent :
  let w := Sample.world Sample.signed_in {[ js "logto:app" := [] ]} in
  sessionStorage w !! logtoStorageKey (this w) = Some []
  /\ JSON_parse [] = None
  /\ signInSession w = Ok None
  /\ forall e, signInSession w <> Throw e.
Proof.
  assert (H : signInSession (Sample.world Sample.signed_in {[ js "logto:app" := [] ]})
              = Ok None) by (vm_compute; reflexivity).
  cbv zeta. rewrite H. repeat split; try discriminate; vm_compute; reflexivity.
Qed.

Lemma signInSession_read_witness :
  signInSession (Sample.world Sample.signed_in ∅) = Ok None
  /\ signInSession (Sample.world Sample.signed_in {[ js "logto:app" := js "{oops" ]})
     = Throw (LogtoClientError "sign_in_session.invalid" SyntaxError)
  /\ signInSession
       (Sample.world Sample.signed_in {[ js "logto:app" := js "{}" ]})
     = Throw (LogtoClientError "sign_in_session.invalid"
                (StructError {| path := [js "redirectUri"]; expected := "string" |})).
Proof.
  split; [|split].
  - destruct (signInSession_read (Sample.world Sample.signed_in ∅)) as (Hunset & _).
    apply Hunset. vm_compute. reflexivity.
  - destruct (signInSession_read
                (Sample.world Sample.signed_in {[ js "logto:app" := js "{oops" ]}))
      as (_ & _ & Hbad & _).
    apply (Hbad (js "{oops")); [vm_compute; reflexivity | discriminate |].
    vm_compute. reflexivity.
  - destruct (signInSession_read
                (Sample.world Sample.signed_in {[ js "logto:app" := js "{}" ]}))
      as (_ & _ & Hbad & _).
    apply (Hbad (js "{}")) with (item := JObject []);
      [vm_compute; reflexivity | discriminate | |]; vm_compute; reflexivity.
Defined.

(** C2 as stated fails for two calls: both are made before a fetch has
    settled, two fetches are started, and when the fetches resolve to
    different documents the two callers get different documents. *)
Lemma getOidcConfig_two_calls_two_fetches :
  let env := Sample.env (Ok Sample.config) (Ok tt) in
  let l := loop_run env (loop_start Sample.signed_in)
             [Call; Call; Settle 0 (Ok Sample.config); Settle 1 (Ok Sample.config')] in
  length (fetches (loop_run env (loop_start Sample.signed_in) [Call; Call])) = 2%nat
  /\ length (fetches l) = 2%nat
  /\ callers l = [Fulfilled Sample.config; Fulfilled Sample.config']
  /\ Sample.config <> Sample.config'.
Proof. vm_compute. repeat split; try reflexivity. discriminate. Qed.

Lemma getOidcConfig_overlapping_calls_witness :
  let env := Sample.env (Ok Sample.config) (Ok tt) in
  let l := loop_run env (loop_start Sample.signed_in) (replicate 3 Call) in
  length (fetches l) = 3%nat /\ callers l = [Waiting 0; Waiting 1; Waiting 2].
Proof.
  destruct (getOidcConfig_overlapping_calls (Sample.env (Ok Sample.config) (Ok tt)))
    as (_ & Hcalls & _).
  apply (Hcalls Sample.signed_in 3%nat). reflexivity.
Defined.

Lemma getOidcConfig_memoizes_witness :
  let env := Sample.env (Ok Sample.config) (Ok tt) in
  let w := Sample.world Sample.signed_in ∅ in
  getOidcConfig env (getOidcConfig env w).2 = (Ok Sample.config, (getOidcConfig env w).2).
Proof.
  destruct (getOidcConfig_memoizes (Sample.env (Ok Sample.config) (Ok tt))
              (Sample.world Sample.signed_in ∅)) as [Hcached _].
  apply Hcached. reflexivity.
Defined.

Lemma decodeToken_round_trip_witness :
  let claims :=
    {| iss := js "https://logto.dev"; sub := js "user"; aud := js "app";
       exp := 1700000000; iat := 1699990000; at_hash := Some (js "a_b-c") |} in
  decodeToken (Encode.token (js "eyJhbGciOiJSUzI1NiJ9") claims (js "sig"))
  = Ok (claims_object claims).
Proof.
  apply decodeToken_round_trip.
  - apply (bool_decide_unpack _). vm_compute. exact I.
  - unfold plain_claims, ascii_only, safe_integer. cbn.
    repeat split; try lia; repeat constructor.
Defined.

Lemma payload_decodes_without_padding_witness :
  (length (Encode.base64url (js "{}!")) mod 4 <> 1)%nat
  /\ Buffer_from_base64
       (fullfillBase64
          (replace_all (code "_") (code "/")
             (replace_all (code "-") (code "+") (Encode.base64url (js "{}!")))))
     = js "{}!".
Proof.
  apply payload_decodes_without_padding. repeat constructor.
Defined.

Lemma signOut_completes_witness :
  let env := Sample.env (Ok Sample.config) (Ok tt) in
  let w := Sample.world Sample.signed_in ∅ in
  let url := js "https://logto.dev/oidc/session/end?id_token_hint=h.e30.s" in
  let w' := (signOut env None w).2 in
  (signOut env None w).1 = Ok tt
  /\ isAuthenticated (this w') = false
  /\ accessTokenMap (this w') = ∅
  /\ refreshToken (this w') = None
  /\ oidcConfig (this w') = Some Sample.config
  /\ localStorage w'
     = delete (js "logto:app:refreshToken")
         (delete (js "logto:app:idToken") (localStorage w))
  /\ sessionStorage w' = sessionStorage w
  /\ effects w'
     = [FetchOidcConfig (js "https://logto.dev/oidc/.well-known/openid-configuration");
        Revoke (js "https://logto.dev/oidc/token/revocation") (js "app") (js "rt");
        LocalStorageRemoveItem (js "logto:app:idToken");
        LocalStorageRemoveItem (js "logto:app:refreshToken");
        LocationAssign url].
Proof.
  apply (signOut_completes (Sample.env (Ok Sample.config) (Ok tt)) None
           (Sample.world Sample.signed_in ∅) Sample.config);
    reflexivity.
Defined.

Lemma decodeToken_claims_complete_witness :
  exists issuer subject audience expires issued,
    let data :=
      claims_object
        {| iss := js "https://logto.dev"; sub := js "use"; aud := js "app";
           exp := 1700000000; iat := 1699990000; at_hash := None |} in
    superstruct.get data (js "iss") = Some (JString issuer)
    /\ superstruct.get data (js "sub") = Some (JString subject)
    /\ superstruct.get data (js "aud") = Some (JString audience)
    /\ superstruct.get data (js "exp") = Some (JNumber expires)
    /\ superstruct.get data (js "iat") = Some (JNumber issued)
    /\ (superstruct.get data (js "at_hash") = None
        \/ exists hash, superstruct.get data (js "at_hash") = Some (JString hash)).
Proof.
  apply (decodeToken_claims_complete
           (js "eyJhbGciOiJSUzI1NiJ9.eyJpc3MiOiJodHRwczovL2xvZ3RvLmRldiIsInN1YiI6InVzZSIsImF1ZCI6ImFwcCIsImV4cCI6MTcwMDAwMDAwMCwiaWF0IjoxNjk5OTkwMDAwfQ.sig")).
  vm_compute. reflexivity.
Defined.


Lemma signInSession_set_then_get_witness :
  let item :=
    {| redirectUri := js "https://app.example/callback";
       codeVerifier := [0x22; 0x5C; 0x0A; 0x1F; 0xE9; 0xD83D; 0xDE00; 0xDC00; 0xFFFF];
       state := [] |} in
  let w := Sample.world Sample.signed_out {[ js "logto:app" := js "{oops" ]} in
  signInSession (set_signInSession (Some item) w).2 = Ok (Some (item_object item)).
Proof.
  cbv zeta.
  match goal with
  | |- signInSession (set_signInSession (Some ?item) ?w).2 = _ =>
      destruct (signInSession_set_then_get item w) as (_ & Hread & _);
        [|exact Hread]
  end.
  unfold well_formed_item, well_formed. cbn [redirectUri codeVerifier state].
  repeat split; repeat constructor.
Defined.

Lemma signIn_completes_witness :
  let env := Sample.env (Ok Sample.config) (Ok tt) in
  let gen := SignInSample.gen (Ok (js "E9Melhoa2OwvFrEMTJguCHaoeK1t8URWbuGJSstw-cM")) in
  let w := Sample.world Sample.signed_out ∅ in
  let w' := (signIn env gen (js "https://app.example/callback") w).2 in
  (signIn env gen (js "https://app.example/callback") w).1 = Ok tt
  /\ signInSession w'
     = Ok (Some (item_object
                   {| redirectUri := js "https://app.example/callback";
                      codeVerifier := js "tfNrnfQ5xFRyFZcnwQaGcMVp_n1mGUvTwnNlvV7dWSk";
                      state := js "3t0pDbNRmFYbJYvKOAuiPg" |}))
  /\ effects w'
     = [FetchOidcConfig (js "https://logto.dev/oidc/.well-known/openid-configuration");
        LocationAssign
          (js "https://logto.dev/oidc/auth?client_id=app&redirect_uri=https://app.example/callback&code_challenge=E9Melhoa2OwvFrEMTJguCHaoeK1t8URWbuGJSstw-cM&state=3t0pDbNRmFYbJYvKOAuiPg&scope=openid+offline_access")].
Proof.
  cbv zeta.
  destruct (signIn_completes (Sample.env (Ok Sample.config) (Ok tt))
              (SignInSample.gen (Ok (js "E9Melhoa2OwvFrEMTJguCHaoeK1t8URWbuGJSstw-cM")))
              (js "https://app.example/callback") (Sample.world Sample.signed_out ∅)
              Sample.config (js "E9Melhoa2OwvFrEMTJguCHaoeK1t8URWbuGJSstw-cM")
              eq_refl eq_refl)
    as (Hresult & _ & Hread & _ & Heffects & _).
  split; [exact Hresult|]. split; [|exact Heffects].
  apply Hread. unfold well_formed_item, well_formed. repeat split; repeat constructor.
Defined.

Lemma signIn_failure_witness :
  let env := Sample.env (Ok Sample.config) (Ok tt) in
  let gen := SignInSample.gen (Throw (Error "crypto.subtle is unavailable")) in
  let w := Sample.world Sample.signed_out ∅ in
  let w' := (signIn env gen (js "https://app.example/callback") w).2 in
  (signIn env gen (js "https://app.example/callback") w).1
  = Throw (Error "crypto.subtle is unavailable")
  /\ sessionStorage w' = ∅
  /\ effects w'
     = [FetchOidcConfig (js "https://logto.dev/oidc/.well-known/openid-configuration")].
Proof.
  cbv zeta.
  destruct (signIn_failure (Sample.env (Ok Sample.config) (Ok tt))
              (SignInSample.gen (Throw (Error "crypto.subtle is unavailable")))
              (js "https://app.example/callback") (Sample.world Sample.signed_out ∅)
              (Error "crypto.subtle is unavailable"))
    as (Hrun & Hsession & _).
  { right. split; [exists Sample.config|]; reflexivity. }
  rewrite Hrun. split; [reflexivity|]. split; reflexivity.
Defined.

Lemma signOut_then_reload_witness :
  let env := Sample.env (Ok Sample.config) (Ok tt) in
  let storage : gmap (list N) (list N) :=
    {[ js "logto:app:idToken" := js "h.e30.s"; js "logto:app:refreshToken" := js "rt" ]} in
  let c := new_LogtoClient SignInSample.getLogtoKey Sample.settings storage in
  let w := {| this := c; localStorage := storage; sessionStorage := ∅; effects := [] |} in
  let w' := (signOut env None w).2 in
  isAuthenticated c = true
  /\ isAuthenticated
       (new_LogtoClient SignInSample.getLogtoKey Sample.settings (localStorage w'))
     = false.
Proof.
  cbv zeta. split; [reflexivity|].
  destruct (signOut_then_reload (Sample.env (Ok Sample.config) (Ok tt))
              SignInSample.getLogtoKey Sample.settings
              {[ js "logto:app:idToken" := js "h.e30.s";
                 js "logto:app:refreshToken" := js "rt" ]}
              ∅ [] None Sample.config eq_refl)
    as (_ & Hreload & _).
  exact Hreload.
Defined.

Lemma signOut_twice_witness :
  let env := Sample.env (Ok Sample.config) (Ok tt) in
  let w' := (signOut env None (Sample.world Sample.signed_in ∅)).2 in
  signOut env (Some (js "https://app.example")) w' = (Ok tt, w').
Proof.
  apply (signOut_twice (Sample.env (Ok Sample.config) (Ok tt)) None
           (Some (js "https://app.example")) (Sample.world Sample.signed_in ∅)
           Sample.config);
    reflexivity.
Defined.
